(** * dsp_db/init_db.py: initialisation and migration of the SQLite file

    A shallow embedding of [src/dsp_db/init_db.py].  The script talks to
    SQLite through Python's [sqlite3] module, so the development has three
    layers:

    - [Engine]: the storage engine, restricted to the statements the script
      issues.  A database is a catalog of tables (ordered columns with their
      declared type and constraints, rows, the AUTOINCREMENT counter) and of
      single-column indexes.
    - [Py]: the Python side of a connection: an error/state monad whose
      state holds the connection (working copy, committed copy, implicit
      transaction flag, cursor result set), the statements sent so far and
      the lines printed.
    - the functions of the script, one definition per function, under the
      names they have in the source.

    Scope of the engine model.  Identifiers are compared as they are
    spelled, and a table and an index never compete for a name; views,
    triggers, multi-column constraints and type affinity are not modelled;
    rowids are unbounded integers.  A statement may also fail for reasons
    outside the catalog (locked or unreadable file, I/O error): the
    connection carries a schedule [w_faults] saying which requests the
    engine refuses.  Transactions follow the [sqlite3] module in its default
    mode: one is opened before an INSERT or UPDATE, schema statements run
    in whatever mode they find, and closing the connection without a commit
    discards the open transaction. *)

From stdpp Require Import base gmap strings list fin_maps pretty.
From Stdlib Require Import ZArith Lia Ascii.

Open Scope Z_scope.

(** ** Storage engine *)

Module Engine.

Inductive value :=
| VNull
| VInt (z : Z)
| VText (s : string).

#[global] Instance value_eq_dec : EqDecision value.
Proof. solve_decision. Defined.

(** INTEGER PRIMARY KEY columns alias the rowid; AUTOINCREMENT never reuses
    a rowid. *)
Inductive pk_kind := NotPk | PkRowid | PkAutoincrement.

#[global] Instance pk_kind_eq_dec : EqDecision pk_kind.
Proof. solve_decision. Defined.

Inductive default_kind :=
| DfltNone
| DfltCurrentTimestamp
| DfltLiteral (v : value).

#[global] Instance default_kind_eq_dec : EqDecision default_kind.
Proof. solve_decision. Defined.

Record column := Column {
  col_name : string;
  col_type : string;
  col_notnull : bool;
  col_unique : bool;
  col_pk : pk_kind;
  col_default : default_kind
}.

#[global] Instance column_eq_dec : EqDecision column.
Proof. solve_decision. Defined.

(** A row maps column names to values; a column without an entry reads as
    NULL. *)
Record table := Table {
  tbl_columns : list column;
  tbl_seq : Z;
  tbl_rows : list (gmap string value)
}.

Record index := Index {
  idx_table : string;
  idx_column : string
}.

#[global] Instance index_eq_dec : EqDecision index.
Proof. solve_decision. Defined.

Record database := Database {
  db_tables : gmap string table;
  db_indexes : gmap string index
}.

Definition empty_db : database := Database ∅ ∅.

Definition read_col (c : string) (r : gmap string value) : value :=
  default VNull (r !! c).

Definition column_names (t : table) : list string := col_name <$> tbl_columns t.

Definition set_table (n : string) (t : table) (d : database) : database :=
  Database (<[n := t]> (db_tables d)) (db_indexes d).

(** The statements of the script. *)
Inductive stmt :=
| PragmaForeignKeysOn
| SelectOne
| SelectMasterTable (name : string)
| SelectMasterIndex (name : string)
| PragmaTableInfo (t : string)
| CreateTableIfNotExists (t : string) (cols : list column)
| CreateIndexIfNotExists (i t c : string)
| InsertOrReplaceKV (t k v : string)
| AlterTableAddColumn (t c ty : string)
| UpdateCoalesce (t c dflt : string)
| CountUserTables
| CountRows (t : string)
| Commit.

Inductive engine_result :=
| EOk (rows : list (list value)) (d : database)
| EError (msg : string).

(** *** Names spliced into SQL text

    [PRAGMA table_info(...)] receives the table name by string
    interpolation, so the name has to be an identifier for the statement to
    parse. *)
Definition is_ident_char (a : ascii) : bool :=
  let n := Ascii.nat_of_ascii a in
  ((48 <=? n) && (n <=? 57) || (65 <=? n) && (n <=? 90)
   || (97 <=? n) && (n <=? 122) || (n =? 95))%nat.

Definition is_digit (a : ascii) : bool :=
  let n := Ascii.nat_of_ascii a in ((48 <=? n) && (n <=? 57))%nat.

Fixpoint all_ident_chars (s : string) : bool :=
  match s with
  | EmptyString => true
  | String a s' => is_ident_char a && all_ident_chars s'
  end.

Definition well_formed_name (s : string) : bool :=
  match s with
  | EmptyString => false
  | String a _ => negb (is_digit a) && all_ident_chars s
  end.

(** *** Catalog queries *)

Definition bool_value (b : bool) : value := VInt (if b then 1 else 0).

Definition default_text (d : default_kind) : value :=
  match d with
  | DfltNone => VNull
  | DfltCurrentTimestamp => VText "CURRENT_TIMESTAMP"
  | DfltLiteral v => v
  end.

(** One result row of [PRAGMA table_info]:
    (cid, name, type, notnull, dflt_value, pk). *)
Definition table_info_row (cid : nat) (c : column) : list value :=
  [ VInt (Z.of_nat cid); VText (col_name c); VText (col_type c);
    bool_value (col_notnull c); default_text (col_default c);
    bool_value (bool_decide (col_pk c ≠ NotPk)) ].

Definition table_info (t : string) (d : database) : list (list value) :=
  match db_tables d !! t with
  | None => []
  | Some tb => imap table_info_row (tbl_columns tb)
  end.

Definition lower_ascii (a : ascii) : ascii :=
  let n := Ascii.nat_of_ascii a in
  if ((65 <=? n) && (n <=? 90))%nat then Ascii.ascii_of_nat (n + 32) else a.

(** [name LIKE 'sqlite_%']: the letters match in either case, [_] stands for
    one arbitrary character. *)
Fixpoint like_prefix_then_one (p s : string) : bool :=
  match p, s with
  | EmptyString, String _ _ => true
  | EmptyString, EmptyString => false
  | String a p', String b s' =>
      bool_decide (lower_ascii a = lower_ascii b) && like_prefix_then_one p' s'
  | String _ _, EmptyString => false
  end.

Definition like_sqlite (name : string) : bool := like_prefix_then_one "sqlite" name.

Definition count_user_tables (d : database) : Z :=
  Z.of_nat (length (filter (λ kv, like_sqlite kv.1 = false) (map_to_list (db_tables d)))).

(** *** Data definition *)

Definition create_table_if_not_exists (t : string) (cols : list column)
    (d : database) : engine_result :=
  match db_tables d !! t with
  | Some _ => EOk [] d
  | None => EOk [] (set_table t (Table cols 0 []) d)
  end.

Definition create_index_if_not_exists (i t c : string) (d : database)
    : engine_result :=
  match db_tables d !! t with
  | None => EError ("no such table: main." +:+ t)
  | Some tb =>
      match db_indexes d !! i with
      | Some _ => EOk [] d
      | None =>
          if bool_decide (c ∈ column_names tb)
          then EOk [] (Database (db_tables d) (<[i := Index t c]> (db_indexes d)))
          else EError ("table " +:+ t +:+ " has no column named " +:+ c)
      end
  end.

Definition added_column (c ty : string) : column :=
  Column c ty false false NotPk DfltNone.

Definition alter_table_add_column (t c ty : string) (d : database)
    : engine_result :=
  match db_tables d !! t with
  | None => EError ("no such table: " +:+ t)
  | Some tb =>
      if bool_decide (c ∈ column_names tb)
      then EError ("duplicate column name: " +:+ c)
      else EOk [] (set_table t
                     (Table (tbl_columns tb ++ [added_column c ty]) (tbl_seq tb)
                            ((λ r, <[c := VNull]> r) <$> tbl_rows tb)) d)
  end.

(** *** Data manipulation *)

Definition is_key (c : column) : bool :=
  col_unique c || bool_decide (col_pk c ≠ NotPk).

Definition coalesce_col (c dflt : string) (r : gmap string value)
    : gmap string value :=
  match read_col c r with
  | VNull => <[c := VText dflt]> r
  | _ => r
  end.

Definition non_null (v : value) : bool :=
  match v with VNull => false | _ => true end.

Definition update_coalesce (t c dflt : string) (d : database) : engine_result :=
  match db_tables d !! t with
  | None => EError ("no such table: " +:+ t)
  | Some tb =>
      match find (λ col, bool_decide (col_name col = c)) (tbl_columns tb) with
      | None => EError ("no such column: " +:+ c)
      | Some col =>
          let rows' := coalesce_col c dflt <$> tbl_rows tb in
          if is_key col
             && negb (bool_decide (NoDup (filter (λ v, non_null v = true)
                                                 (read_col c <$> rows'))))
          then EError ("UNIQUE constraint failed: " +:+ t +:+ "." +:+ c)
          else EOk [] (set_table t (Table (tbl_columns tb) (tbl_seq tb) rows') d)
      end
  end.

Definition pk_column (cols : list column) : option column :=
  find (λ c, bool_decide (col_pk c ≠ NotPk)) cols.

Definition rowid_of (pkc : string) (r : gmap string value) : Z :=
  match read_col pkc r with VInt z => z | _ => 0 end.

Fixpoint max_rowid (pkc : string) (rows : list (gmap string value)) : option Z :=
  match rows with
  | [] => None
  | r :: rs =>
      Some (match max_rowid pkc rs with
            | None => rowid_of pkc r
            | Some m => Z.max (rowid_of pkc r) m
            end)
  end.

(** The rowid of the next inserted row.  With AUTOINCREMENT it exceeds every
    rowid the table ever held. *)
Definition next_rowid (tb : table) : Z :=
  match pk_column (tbl_columns tb) with
  | None => 0
  | Some c =>
      match col_pk c with
      | PkAutoincrement =>
          Z.max (tbl_seq tb) (default 0 (max_rowid (col_name c) (tbl_rows tb))) + 1
      | _ =>
          match max_rowid (col_name c) (tbl_rows tb) with
          | None => 1
          | Some m => m + 1
          end
      end
  end.

(** The AUTOINCREMENT counter remembers the largest rowid handed out. *)
Definition bump_seq (tb : table) (id : Z) : Z :=
  match pk_column (tbl_columns tb) with
  | Some c => match col_pk c with
              | PkAutoincrement => id
              | _ => tbl_seq tb
              end
  | None => tbl_seq tb
  end.

Definition default_value (now : string) (d : default_kind) : value :=
  match d with
  | DfltNone => VNull
  | DfltCurrentTimestamp => VText now
  | DfltLiteral v => v
  end.

(** Value stored in column [c] by
    [INSERT ... INTO t (key, value) VALUES (k, v)]. *)
Definition inserted_value (now k v : string) (id : Z) (c : column) : value :=
  if bool_decide (col_name c = "key") then VText k
  else if bool_decide (col_name c = "value") then VText v
  else match col_pk c with
       | NotPk => default_value now (col_default c)
       | _ => VInt id
       end.

Definition inserted_row (now k v : string) (id : Z) (cols : list column)
    : gmap string value :=
  list_to_map ((λ c, (col_name c, inserted_value now k v id c)) <$> cols).

(** An existing row conflicts with the new one when they agree, with a
    non-NULL value, on a UNIQUE or PRIMARY KEY column. *)
Definition conflicts (cols : list column) (new old : gmap string value) : bool :=
  existsb (λ c, is_key c
                && non_null (read_col (col_name c) new)
                && bool_decide (read_col (col_name c) old = read_col (col_name c) new))
          cols.

Definition insert_or_replace_kv (now t k v : string) (d : database)
    : engine_result :=
  match db_tables d !! t with
  | None => EError ("no such table: " +:+ t)
  | Some tb =>
      let cols := tbl_columns tb in
      if negb (bool_decide ("key" ∈ column_names tb))
      then EError ("table " +:+ t +:+ " has no column named key")
      else if negb (bool_decide ("value" ∈ column_names tb))
      then EError ("table " +:+ t +:+ " has no column named value")
      else if existsb (λ c, bool_decide (col_pk c ≠ NotPk)
                            && (bool_decide (col_name c = "key")
                                || bool_decide (col_name c = "value"))) cols
      then EError "datatype mismatch"
      else
        let id := next_rowid tb in
        let r := inserted_row now k v id cols in
        match find (λ c, col_notnull c
                         && negb (non_null (read_col (col_name c) r))) cols with
        | Some c =>
            EError ("NOT NULL constraint failed: " +:+ t +:+ "." +:+ col_name c)
        | None =>
            let kept := filter (λ old, conflicts cols r old = false) (tbl_rows tb) in
            EOk [] (set_table t (Table cols (bump_seq tb id) (kept ++ [r])) d)
        end
  end.

Definition count_rows (t : string) (d : database) : engine_result :=
  match db_tables d !! t with
  | None => EError ("no such table: " +:+ t)
  | Some tb => EOk [[VInt (Z.of_nat (length (tbl_rows tb)))]] d
  end.

(** *** One statement *)

Definition engine (now : string) (s : stmt) (d : database) : engine_result :=
  match s with
  | PragmaForeignKeysOn => EOk [] d
  | SelectOne => EOk [[VInt 1]] d
  | SelectMasterTable name =>
      EOk (if bool_decide (is_Some (db_tables d !! name)) then [[VInt 1]] else []) d
  | SelectMasterIndex name =>
      EOk (if bool_decide (is_Some (db_indexes d !! name)) then [[VInt 1]] else []) d
  | PragmaTableInfo t =>
      if well_formed_name t then EOk (table_info t d) d
      else EError ("near " +:+ t +:+ ": syntax error")
  | CreateTableIfNotExists t cols => create_table_if_not_exists t cols d
  | CreateIndexIfNotExists i t c => create_index_if_not_exists i t c d
  | InsertOrReplaceKV t k v => insert_or_replace_kv now t k v d
  | AlterTableAddColumn t c ty => alter_table_add_column t c ty d
  | UpdateCoalesce t c dflt => update_coalesce t c dflt d
  | CountUserTables => EOk [[VInt (count_user_tables d)]] d
  | CountRows t => count_rows t d
  | Commit => EOk [] d
  end.

Definition is_dml (s : stmt) : bool :=
  match s with
  | InsertOrReplaceKV _ _ _ | UpdateCoalesce _ _ _ => true
  | _ => false
  end.

Definition is_ddl (s : stmt) : bool :=
  match s with
  | CreateTableIfNotExists _ _ | CreateIndexIfNotExists _ _ _
  | AlterTableAddColumn _ _ _ => true
  | _ => false
  end.

End Engine.

(** ** The Python side: connection, cursor, exceptions, printed lines *)

Module Py.
Import Engine.

(** [sqlite3.Error] and its subclasses, against every other exception. *)
Inductive exn :=
| SqliteError (msg : string)
| OtherError (msg : string).

Definition exn_text (e : exn) : string :=
  match e with SqliteError m => m | OtherError m => m end.

Inductive result (A : Type) :=
| Ok (a : A)
| Raise (e : exn).
Arguments Ok {A} a.
Arguments Raise {A} e.

(** [w_db] is the database as the connection sees it, [w_disk] what the file
    holds (the last committed state).  [w_faults n] tells whether the engine
    refuses the [n]-th request of the connection. *)
Record world := World {
  w_db : database;
  w_disk : database;
  w_in_txn : bool;
  w_cursor : list (list value);
  w_now : string;
  w_faults : nat → bool;
  w_trace : list stmt;
  w_out : list string
}.

Definition M (A : Type) : Type := world → result A * world.

Definition ret {A} (a : A) : M A := λ w, (Ok a, w).

Definition bind {A B} (m : M A) (k : A → M B) : M B :=
  λ w, match m w with
       | (Ok a, w') => k a w'
       | (Raise e, w') => (Raise e, w')
       end.

Definition raise {A} (e : exn) : M A := λ w, (Raise e, w).

#[global] Instance M_ret : MRet M := @ret.
#[global] Instance M_bind : MBind M := λ A B k m, bind m k.

(** [try: m except sqlite3.Error as e: h e] *)
Definition try_sqlite {A} (m : M A) (h : string → M A) : M A :=
  λ w, match m w with
       | (Raise (SqliteError msg), w') => h msg w'
       | r => r
       end.

(** [try: m except Exception as e: h e] *)
Definition try_any {A} (m : M A) (h : string → M A) : M A :=
  λ w, match m w with
       | (Raise e, w') => h (exn_text e) w'
       | r => r
       end.

Definition print (line : string) : M unit :=
  λ w, (Ok (), World (w_db w) (w_disk w) (w_in_txn w) (w_cursor w) (w_now w)
                     (w_faults w) (w_trace w) (w_out w ++ [line])).

(** One request to the engine.  The module opens a transaction before a
    data-manipulation statement; a schema statement outside a transaction
    reaches the file at once.  A request that fails changes neither copy. *)
Definition request (s : stmt) : M (list (list value)) :=
  λ w,
    let trace := w_trace w ++ [s] in
    if w_faults w (length (w_trace w))
    then (Raise (SqliteError "disk I/O error"),
          World (w_db w) (w_disk w) (w_in_txn w) (w_cursor w) (w_now w)
                (w_faults w) trace (w_out w))
    else match engine (w_now w) s (w_db w) with
         | EError msg =>
             (Raise (SqliteError msg),
              World (w_db w) (w_disk w) (w_in_txn w) (w_cursor w) (w_now w)
                    (w_faults w) trace (w_out w))
         | EOk rows d =>
             let txn := w_in_txn w || is_dml s in
             (Ok rows,
              World d (if negb txn && is_ddl s then d else w_disk w) txn
                    (w_cursor w) (w_now w) (w_faults w) trace
                    (w_out w))
         end.

(** [conn.execute(sql)]: runs on a cursor of its own. *)
Definition conn_execute (s : stmt) : M unit :=
  _ ← request s; mret ().

Definition set_cursor (rows : list (list value)) : M unit :=
  λ w, (Ok (), World (w_db w) (w_disk w) (w_in_txn w) rows (w_now w)
                     (w_faults w) (w_trace w) (w_out w)).

(** [cursor.execute(sql)]: the result set replaces the cursor's. *)
Definition cursor_execute (s : stmt) : M unit :=
  _ ← set_cursor [];
  rows ← request s;
  set_cursor rows.

(** [cursor.fetchone()]: [None] once the result set is exhausted. *)
Definition fetchone : M (option (list value)) :=
  λ w, match w_cursor w with
       | [] => (Ok None, w)
       | r :: rs =>
           (Ok (Some r), World (w_db w) (w_disk w) (w_in_txn w) rs (w_now w)
                               (w_faults w) (w_trace w) (w_out w))
       end.

Definition fetchall : M (list (list value)) :=
  λ w, (Ok (w_cursor w),
        World (w_db w) (w_disk w) (w_in_txn w) [] (w_now w)
              (w_faults w) (w_trace w) (w_out w)).

(** [conn.commit()]: nothing to do outside a transaction; otherwise the
    engine is asked to make the working copy durable. *)
Definition commit : M unit :=
  λ w,
    if w_in_txn w then
      if w_faults w (length (w_trace w))
      then (Raise (SqliteError "disk I/O error"),
            World (w_db w) (w_disk w) true (w_cursor w) (w_now w)
                  (w_faults w) (w_trace w ++ [Commit]) (w_out w))
      else (Ok (), World (w_db w) (w_db w) false (w_cursor w) (w_now w)
                         (w_faults w) (w_trace w ++ [Commit]) (w_out w))
    else (Ok (), w).

(** [sqlite3.connect(db_file)] on a file holding [d]. *)
Definition connect (now : string) (faults : nat → bool) (d : database) : world :=
  World d d false [] now faults [] [].

Definition no_faults : nat → bool := λ _, false.

End Py.

(** ** The script *)

Export Engine Py.

Definition DB_NAME : string := "myapp.db".

(** The column lists of the two [CREATE TABLE] statements. *)
Definition app_info_columns : list column :=
  [ Column "id" "INTEGER" false false PkAutoincrement DfltNone;
    Column "key" "TEXT" true true NotPk DfltNone;
    Column "value" "TEXT" false false NotPk DfltNone;
    Column "created_at" "TIMESTAMP" false false NotPk DfltCurrentTimestamp ].

Definition users_columns : list column :=
  [ Column "id" "INTEGER" false false PkAutoincrement DfltNone;
    Column "username" "TEXT" true true NotPk DfltNone;
    Column "email" "TEXT" true true NotPk DfltNone;
    Column "password_hash" "TEXT" true false NotPk DfltNone;
    Column "last_login" "TIMESTAMP" false false NotPk DfltNone;
    Column "created_at" "TIMESTAMP" false false NotPk DfltCurrentTimestamp ].

Definition _enable_foreign_keys : M unit :=
  try_sqlite
    (conn_execute PragmaForeignKeysOn)
    (λ e, print ("Warning: failed to enable foreign keys: " +:+ e)).

Definition _table_exists (table_name : string) : M bool :=
  _ ← cursor_execute (SelectMasterTable table_name);
  r ← fetchone;
  mret (bool_decide (r ≠ None)).

Definition _column_exists (table column : string) : M bool :=
  try_sqlite
    (_ ← cursor_execute (PragmaTableInfo table);
     cols ← fetchall;
     mret (existsb (λ col, bool_decide (nth 1 col VNull = VText column)) cols))
    (λ e,
     _ ← print ("Warning: could not inspect columns for " +:+ table +:+ ": " +:+ e);
     mret false).

Definition _index_exists (index_name : string) : M bool :=
  _ ← cursor_execute (SelectMasterIndex index_name);
  r ← fetchone;
  mret (bool_decide (r ≠ None)).

Definition _create_base_schema : M unit :=
  _ ← cursor_execute (CreateTableIfNotExists "app_info" app_info_columns);
  _ ← cursor_execute (CreateTableIfNotExists "users" users_columns);
  _ ← cursor_execute (CreateIndexIfNotExists "idx_users_username" "users" "username");
  _ ← cursor_execute (CreateIndexIfNotExists "idx_users_email" "users" "email");
  _ ← cursor_execute (InsertOrReplaceKV "app_info" "project_name" "dsp_db");
  _ ← cursor_execute (InsertOrReplaceKV "app_info" "version" "0.1.0");
  _ ← cursor_execute (InsertOrReplaceKV "app_info" "author" "John Doe");
  cursor_execute (InsertOrReplaceKV "app_info" "description" "").

Definition _migrate_existing_db : M unit :=
  users_present ← _table_exists "users";
  if negb users_present then _create_base_schema
  else
    has_hash ← _column_exists "users" "password_hash";
    _ ← (if negb has_hash then
           try_sqlite
             (_ ← cursor_execute (AlterTableAddColumn "users" "password_hash" "TEXT");
              _ ← cursor_execute (UpdateCoalesce "users" "password_hash" "");
              print "Added users.password_hash column")
             (λ e, print ("Warning: could not add password_hash column: " +:+ e))
         else mret ());
    has_login ← _column_exists "users" "last_login";
    _ ← (if negb has_login then
           try_sqlite
             (_ ← cursor_execute (AlterTableAddColumn "users" "last_login" "TIMESTAMP");
              print "Added users.last_login column")
             (λ e, print ("Warning: could not add last_login column: " +:+ e))
         else mret ());
    has_idx_username ← _index_exists "idx_users_username";
    _ ← (if negb has_idx_username then
           try_sqlite
             (cursor_execute
                (CreateIndexIfNotExists "idx_users_username" "users" "username"))
             (λ e, print ("Warning: could not create idx_users_username: " +:+ e))
         else mret ());
    has_idx_email ← _index_exists "idx_users_email";
    _ ← (if negb has_idx_email then
           try_sqlite
             (cursor_execute
                (CreateIndexIfNotExists "idx_users_email" "users" "email"))
             (λ e, print ("Warning: could not create idx_users_email: " +:+ e))
         else mret ());
    app_info_present ← _table_exists "app_info";
    _ ← (if negb app_info_present then
           try_sqlite
             (cursor_execute (CreateTableIfNotExists "app_info" app_info_columns))
             (λ e, print ("Warning: could not create app_info table: " +:+ e))
         else mret ());
    try_sqlite
      (_ ← cursor_execute (InsertOrReplaceKV "app_info" "project_name" "dsp_db");
       _ ← cursor_execute (InsertOrReplaceKV "app_info" "version" "0.1.0");
       _ ← cursor_execute (InsertOrReplaceKV "app_info" "author" "John Doe");
       cursor_execute (InsertOrReplaceKV "app_info" "description" ""))
      (λ e, print ("Warning: could not seed app_info: " +:+ e)).

(** What the run finds outside the database: the clock, the file system and
    whether the engine can open and serve the file. *)
Record env := Env {
  env_connect_error : option string;
  env_now : string;
  env_faults : nat → bool;
  env_cwd : string;
  env_conn_info_error : option string;
  env_viewer_dir_exists : bool;
  env_makedirs_error : option string;
  env_sqlite_env_error : option string;
  env_sqlite_cli : bool
}.

Definition _write_connection_info (e : env) (db_file : string) : M unit :=
  try_any
    (match env_conn_info_error e with
     | Some msg => raise (OtherError msg)
     | None => print "Connection information saved to db_connection.txt"
     end)
    (λ msg, print ("Warning: Could not save connection info: " +:+ msg)).

Definition _write_sqlite_env (e : env) (db_path : string) : M unit :=
  _ ← (if negb (env_viewer_dir_exists e) then
         _ ← (match env_makedirs_error e with
              | Some msg => raise (OtherError msg)
              | None => mret ()
              end);
         print "Created db_visualizer directory"
       else mret ());
  try_any
    (match env_sqlite_env_error e with
     | Some msg => raise (OtherError msg)
     | None => print "Environment variables saved to db_visualizer/sqlite.env"
     end)
    (λ msg, print ("Warning: Could not save environment variables: " +:+ msg)).

Definition abspath (cwd p : string) : string :=
  match p with
  | String "/" _ => p
  | _ => cwd +:+ "/" +:+ p
  end.

Definition value_text (v : value) : string :=
  match v with
  | VNull => "None"
  | VInt z => pretty z
  | VText s => s
  end.

(** The statistics gathered after the commit; a failed query counts as 0. *)
Definition gather_count (s : stmt) : M value :=
  try_sqlite
    (_ ← cursor_execute s;
     r ← fetchone;
     match r with
     | Some (v :: _) => mret v
     | _ => raise (OtherError "TypeError: object is not subscriptable")
     end)
    (λ _, mret (VInt 0)).

(** The part of [main] between [sqlite3.connect] and [conn.close()]. *)
Definition main_connected (db_exists : bool) (db_file : string)
    : M (value * value) :=
  _ ← _enable_foreign_keys;
  _ ← (if db_exists then
         _ ← print ("SQLite database already exists at " +:+ db_file);
         _ ← try_any
               (_ ← conn_execute SelectOne;
                print "Database is accessible and working.")
               (λ e, print ("Warning: Database exists but may be corrupted: " +:+ e));
         _migrate_existing_db
       else
         _ ← print "Creating new SQLite database...";
         _create_base_schema);
  _ ← commit;
  table_count ← gather_count CountUserTables;
  record_count ← gather_count (CountRows "app_info");
  mret (table_count, record_count).

(** The part of [main] after [conn.close()]. *)
Definition main_report (e : env) (db_file : string) (counts : value * value)
    : M Z :=
  _ ← _write_connection_info e db_file;
  _ ← _write_sqlite_env e (abspath (env_cwd e) db_file);
  let connection_string := "sqlite:///" +:+ env_cwd e +:+ "/" +:+ db_file in
  _ ← print "
SQLite setup complete!";
  _ ← print ("Database: " +:+ db_file);
  _ ← print ("Location: " +:+ env_cwd e +:+ "/" +:+ db_file +:+ "
");
  _ ← print "To use with Node.js viewer, run: source db_visualizer/sqlite.env
";
  _ ← print "To connect to the database, use one of the following methods:";
  _ ← print ("1. Python: sqlite3.connect('" +:+ db_file +:+ "')");
  _ ← print ("2. Connection string: " +:+ connection_string);
  _ ← print ("3. Direct file access: " +:+ env_cwd e +:+ "/" +:+ db_file +:+ "
");
  _ ← print "Database statistics:";
  _ ← print ("  Tables: " +:+ value_text counts.1);
  _ ← print ("  App info records: " +:+ value_text counts.2);
  _ ← (if env_sqlite_cli e then
         _ ← print "";
         _ ← print "SQLite CLI is available. You can also use:";
         print ("  sqlite3 " +:+ db_file)
       else mret ());
  _ ← print "
Script completed successfully.";
  mret 0.

(** How a call of [main] ends, the file it leaves and the final state of the
    connection (statements sent, lines printed). *)
Inductive outcome :=
| Returned (code : Z)
| Uncaught (e : exn).

Record run := Run {
  run_outcome : outcome;
  run_file : option database;
  run_world : world
}.

(** [db_file or DB_NAME] *)
Definition db_file_or_default (db_file : option string) : string :=
  match db_file with
  | Some "" | None => DB_NAME
  | Some p => p
  end.

Definition main (e : env) (db_file : option string) (file : option database)
    : run :=
  let db_file := db_file_or_default db_file in
  let db_exists := bool_decide (file ≠ None) in
  let w0 := connect (env_now e) (env_faults e) (default empty_db file) in
  let w1 := (print "Starting SQLite setup..." w0).2 in
  match env_connect_error e with
  | Some msg =>
      Run (Returned 1) file (print ("Database connection error: " +:+ msg) w1).2
  | None =>
      match main_connected db_exists db_file w1 with
      | (Raise ex, w2) => Run (Uncaught ex) (Some (w_disk w2)) w2
      | (Ok counts, w2) =>
          match main_report e db_file counts w2 with
          | (Raise ex, w3) => Run (Uncaught ex) (Some (w_disk w3)) w3
          | (Ok code, w3) => Run (Returned code) (Some (w_disk w3)) w3
          end
      end
  end.

(** [sys.exit(main(...))]: the interpreter ends with status 1 when an
    exception reaches the top level. *)
Definition exit_code (o : outcome) : Z :=
  match o with
  | Returned code => code
  | Uncaught _ => 1
  end.

(** ** Facts about the engine *)

(** The schema of a database: the columns of every table, and the indexes. *)
Definition tables_schema (d : database) : gmap string (list column) :=
  tbl_columns <$> db_tables d.

Definition schema_of (d : database) : gmap string (list column) * gmap string index :=
  (tables_schema d, db_indexes d).

(** The database a statement leaves: unchanged when the statement fails. *)
Definition after (now : string) (s : stmt) (d : database) : database :=
  match engine now s d with
  | EOk _ d' => d'
  | EError _ => d
  end.

Definition succeeds (now : string) (s : stmt) (d : database) : bool :=
  match engine now s d with
  | EOk _ _ => true
  | EError _ => false
  end.

Lemma tables_schema_lookup d t :
  tables_schema d !! t = tbl_columns <$> db_tables d !! t.
Proof. unfold tables_schema. apply lookup_fmap. Qed.

Lemma tables_schema_set_table t tb d :
  tables_schema (set_table t tb d) = <[t := tbl_columns tb]> (tables_schema d).
Proof. unfold tables_schema, set_table. simpl. apply fmap_insert. Qed.

Lemma tables_schema_set_same t tb tb' d :
  db_tables d !! t = Some tb →
  tbl_columns tb' = tbl_columns tb →
  tables_schema (set_table t tb' d) = tables_schema d.
Proof.
  intros Ht Hc. rewrite tables_schema_set_table, Hc.
  apply insert_id. rewrite tables_schema_lookup, Ht. done.
Qed.

Lemma insert_or_replace_kv_schema now t k v d rows d' :
  insert_or_replace_kv now t k v d = EOk rows d' → schema_of d' = schema_of d.
Proof.
  unfold insert_or_replace_kv.
  destruct (db_tables d !! t) as [tb|] eqn:Ht; [|done].
  repeat (case_match; try done); intros [= _ <-].
  unfold schema_of. f_equal.
  by apply (tables_schema_set_same _ tb).
Qed.

Lemma update_coalesce_schema t c dflt d rows d' :
  update_coalesce t c dflt d = EOk rows d' → schema_of d' = schema_of d.
Proof.
  unfold update_coalesce.
  destruct (db_tables d !! t) as [tb|] eqn:Ht; [|done].
  repeat (case_match; try done); intros [= _ <-].
  unfold schema_of. f_equal.
  by apply (tables_schema_set_same _ tb).
Qed.

Lemma engine_dml_schema now s d rows d' :
  is_dml s = true → engine now s d = EOk rows d' → schema_of d' = schema_of d.
Proof.
  destruct s; try done; simpl; intros _.
  - apply insert_or_replace_kv_schema.
  - apply update_coalesce_schema.
Qed.

Lemma engine_query_same now s d rows d' :
  is_dml s = false → is_ddl s = false →
  engine now s d = EOk rows d' → d' = d.
Proof.
  destruct s; try done; simpl; intros _ _; try congruence.
  - case_match; congruence.
  - unfold count_rows. case_match; congruence.
Qed.

Lemma after_dml_schema now s d :
  is_dml s = true → schema_of (after now s d) = schema_of d.
Proof.
  intros Hs. unfold after.
  destruct (engine now s d) eqn:He; [|done].
  by eapply engine_dml_schema.
Qed.

Lemma after_query now s d :
  is_dml s = false → is_ddl s = false → after now s d = d.
Proof.
  intros H1 H2. unfold after.
  destruct (engine now s d) eqn:He; [|done].
  by eapply engine_query_same.
Qed.

(** Every statement only extends the schema: tables stay, and the column
    list of a table grows at its end. *)
Definition schema_le (d d' : database) : Prop :=
  ∀ t cols, tables_schema d !! t = Some cols →
    ∃ cols', tables_schema d' !! t = Some cols' ∧ cols `prefix_of` cols'.

#[global] Instance schema_le_preorder : PreOrder schema_le.
Proof.
  split.
  - intros d t cols H. by exists cols.
  - intros d1 d2 d3 H12 H23 t cols H.
    destruct (H12 _ _ H) as (c2 & H2 & Hp2).
    destruct (H23 _ _ H2) as (c3 & H3 & Hp3).
    exists c3. split; [done|]. by etrans.
Qed.

Lemma schema_le_of_eq d d' : schema_of d' = schema_of d → schema_le d d'.
Proof.
  intros [= Ht _] t cols H. exists cols. by rewrite Ht.
Qed.

Lemma schema_le_set_table t tb d :
  (∀ old, db_tables d !! t = Some old →
          tbl_columns old `prefix_of` tbl_columns tb) →
  schema_le d (set_table t tb d).
Proof.
  intros Hold t' cols H. rewrite tables_schema_set_table.
  destruct (decide (t = t')) as [<-|Hne].
  - rewrite lookup_insert_eq. eexists; split; [done|].
    rewrite tables_schema_lookup in H.
    destruct (db_tables d !! t) as [old|] eqn:Ho; [|done].
    simpl in H. injection H as <-. by apply Hold.
  - rewrite lookup_insert_ne by done. by exists cols.
Qed.

Lemma engine_schema_le now s d rows d' :
  engine now s d = EOk rows d' → schema_le d d'.
Proof.
  destruct (is_dml s) eqn:Hdml.
  { intros He. apply schema_le_of_eq. by eapply engine_dml_schema. }
  destruct (is_ddl s) eqn:Hddl.
  2:{ intros He. by rewrite (engine_query_same _ _ _ _ _ Hdml Hddl He). }
  destruct s; try done; simpl.
  - unfold create_table_if_not_exists.
    destruct (db_tables d !! t) eqn:Ht; intros [= _ <-]; [done|].
    apply schema_le_set_table. intros old. by rewrite Ht.
  - unfold create_index_if_not_exists.
    repeat (case_match; try done); intros [= _ <-]; try done.
    intros t' cols Hc. by exists cols.
  - unfold alter_table_add_column.
    destruct (db_tables d !! t) as [tb|] eqn:Ht; [|done].
    case_match; [done|]. intros [= _ <-].
    apply schema_le_set_table. intros old Ho. rewrite Ht in Ho.
    injection Ho as <-. simpl. by apply prefix_app_r.
Qed.

Lemma after_schema_le now s d : schema_le d (after now s d).
Proof.
  unfold after. destruct (engine now s d) eqn:He; [|done].
  by eapply engine_schema_le.
Qed.

(** ** Invariants of a run

    A property of the connection that every request and every commit keeps,
    and that does not look at the cursor, the trace or the printed lines, is
    kept by every function of the script, whatever the engine answers. *)

Definition preserves {A} (P : world → Prop) (m : M A) : Prop :=
  ∀ w, P w → P (m w).2.

Definition same_store (w w' : world) : Prop :=
  w_db w' = w_db w ∧ w_disk w' = w_disk w ∧ w_in_txn w' = w_in_txn w
  ∧ w_now w' = w_now w ∧ w_faults w' = w_faults w.

Definition stable (P : world → Prop) : Prop :=
  ∀ w w', same_store w w' → P w → P w'.

Lemma preserves_ret {A} P (a : A) : preserves P (mret a).
Proof. by intros w H. Qed.

Lemma preserves_raise {A} P e : preserves P (@raise A e).
Proof. by intros w H. Qed.

Lemma preserves_bind {A B} P (m : M A) (k : A → M B) :
  preserves P m → (∀ a, preserves P (k a)) → preserves P (m ≫= k).
Proof.
  intros Hm Hk w H. unfold mbind, M_bind, bind.
  specialize (Hm w H). destruct (m w) as [[a|e] w']; simpl in *; [|done].
  by apply Hk.
Qed.

Lemma preserves_try_sqlite {A} P (m : M A) h :
  preserves P m → (∀ e, preserves P (h e)) → preserves P (try_sqlite m h).
Proof.
  intros Hm Hh w H. unfold try_sqlite.
  specialize (Hm w H). destruct (m w) as [[a|[msg|msg]] w']; simpl in *; try done.
  by apply Hh.
Qed.

Lemma preserves_try_any {A} P (m : M A) h :
  preserves P m → (∀ e, preserves P (h e)) → preserves P (try_any m h).
Proof.
  intros Hm Hh w H. unfold try_any.
  specialize (Hm w H). destruct (m w) as [[a|e] w']; simpl in *; try done.
  by apply Hh.
Qed.

Lemma preserves_print P line : stable P → preserves P (print line).
Proof. intros HP w H. by apply (HP w). Qed.

Lemma preserves_set_cursor P rows : stable P → preserves P (set_cursor rows).
Proof. intros HP w H. by apply (HP w). Qed.

Lemma preserves_fetchone P : stable P → preserves P fetchone.
Proof.
  intros HP w H. unfold fetchone. destruct (w_cursor w); [done|].
  by apply (HP w).
Qed.

Lemma preserves_fetchall P : stable P → preserves P fetchall.
Proof. intros HP w H. by apply (HP w). Qed.

Section Invariant.
Variable P : world → Prop.
Hypothesis P_stable : stable P.
Hypothesis P_request : ∀ s, preserves P (request s).
Hypothesis P_commit : preserves P commit.

Ltac preserve :=
  repeat first
    [ apply preserves_bind; [|intros ?]
    | apply preserves_try_sqlite; [|intros ?]
    | apply preserves_try_any; [|intros ?]
    | apply preserves_ret
    | apply preserves_raise
    | apply preserves_print; exact P_stable
    | apply preserves_set_cursor; exact P_stable
    | apply preserves_fetchone; exact P_stable
    | apply preserves_fetchall; exact P_stable
    | apply P_request
    | apply P_commit
    | match goal with
      | |- preserves _ (if ?b then _ else _) => destruct b
      | |- preserves _ (match ?x with _ => _ end) => destruct x
      end ].

Lemma preserves_conn_execute s : preserves P (conn_execute s).
Proof. unfold conn_execute. preserve. Qed.

Lemma preserves_cursor_execute s : preserves P (cursor_execute s).
Proof. unfold cursor_execute. preserve. Qed.

Lemma preserves_table_exists t : preserves P (_table_exists t).
Proof. unfold _table_exists. preserve. Qed.

Lemma preserves_column_exists t c : preserves P (_column_exists t c).
Proof. unfold _column_exists. preserve. Qed.

Lemma preserves_index_exists i : preserves P (_index_exists i).
Proof. unfold _index_exists. preserve. Qed.

Ltac preserve_script :=
  repeat first
    [ apply preserves_cursor_execute
    | apply preserves_conn_execute
    | apply preserves_table_exists
    | apply preserves_column_exists
    | apply preserves_index_exists
    | progress preserve ].

Lemma preserves_create_base_schema : preserves P _create_base_schema.
Proof. unfold _create_base_schema. preserve_script. Qed.

Lemma preserves_migrate_existing_db : preserves P _migrate_existing_db.
Proof.
  unfold _migrate_existing_db. preserve_script.
Qed.

Lemma preserves_main_connected db_exists db_file :
  preserves P (main_connected db_exists db_file).
Proof.
  unfold main_connected, _enable_foreign_keys, gather_count.
  preserve_script.
Qed.

Lemma preserves_main_report e db_file counts :
  preserves P (main_report e db_file counts).
Proof.
  unfold main_report, _write_connection_info, _write_sqlite_env.
  preserve_script.
Qed.
End Invariant.

(** *** The schema only grows *)

Definition within (d0 : database) (w : world) : Prop :=
  schema_le d0 (w_db w) ∧ schema_le d0 (w_disk w).

Lemma within_stable d0 : stable (within d0).
Proof.
  intros w w' (Hdb & Hdisk & _) [H1 H2]. unfold within.
  by rewrite Hdb, Hdisk.
Qed.

Lemma within_request d0 s : preserves (within d0) (request s).
Proof.
  intros w [Hdb Hdisk]. unfold request.
  destruct (w_faults w _); [done|].
  destruct (engine (w_now w) s (w_db w)) as [rows d'|msg] eqn:He; [|done].
  assert (schema_le d0 d').
  { transitivity (w_db w); [done|]. by eapply engine_schema_le. }
  split; simpl; [done|]. by case_match.
Qed.

Lemma within_commit d0 : preserves (within d0) commit.
Proof.
  intros w [Hdb Hdisk]. unfold commit.
  destruct (w_in_txn w); [|done]. by destruct (w_faults w _).
Qed.

Lemma within_connect now faults d : within d (connect now faults d).
Proof. by split. Qed.

Lemma main_file_within e p d :
  ∃ d', run_file (main e p (Some d)) = Some d' ∧ schema_le d d'.
Proof.
  unfold main. destruct (env_connect_error e); [by exists d|].
  set (db_file := db_file_or_default p).
  set (w1 := (print _ _).2).
  assert (H1 : within d w1).
  { apply (preserves_print _ _ (within_stable d)), within_connect. }
  pose proof (preserves_main_connected _ (within_stable d) (within_request d)
                (within_commit d) true db_file w1 H1) as H2.
  change (bool_decide (Some d ≠ None)) with true.
  destruct (main_connected true db_file w1) as [[counts|ex] w2]; simpl in *.
  2:{ exists (w_disk w2). split; [done|]. apply H2. }
  pose proof (preserves_main_report _ (within_stable d) e db_file counts
                w2 H2) as H3.
  destruct (main_report e db_file counts w2) as [[code|ex] w3]; simpl in *;
    exists (w_disk w3); (split; [done|apply H3]).
Qed.

(** *** Connections that keep the file and the working copy in step *)

Definition coherent (w : world) : Prop :=
  w_in_txn w = false → w_disk w = w_db w.

Lemma coherent_stable : stable coherent.
Proof.
  intros w w' (Hdb & Hdisk & Htxn & _) H. unfold coherent.
  rewrite Hdb, Hdisk, Htxn. exact H.
Qed.

Lemma coherent_request s : preserves coherent (request s).
Proof.
  intros w H. unfold request.
  destruct (w_faults w _); [done|].
  destruct (engine (w_now w) s (w_db w)) as [rows d'|msg] eqn:He; [|done].
  unfold coherent in *. simpl.
  destruct (w_in_txn w); simpl; [done|].
  destruct (is_dml s) eqn:Hdml; simpl; [done|]. intros _.
  destruct (is_ddl s) eqn:Hddl; [done|].
  rewrite (engine_query_same _ _ _ _ _ Hdml Hddl He). by apply H.
Qed.

Lemma coherent_commit : preserves coherent commit.
Proof.
  intros w H. unfold commit.
  destruct (w_in_txn w) eqn:Htxn; [|done].
  destruct (w_faults w _); simpl; [|done].
  unfold coherent. simpl. done.
Qed.

(** ** Runs on a healthy engine

    From here on the engine answers every request: statements fail only for
    what the catalog and the rows hold. *)

Definition healthy (w : world) : Prop := ∀ n, w_faults w n = false.

Definition hoare {A} (P : world → Prop) (m : M A)
    (Q : result A → world → Prop) : Prop :=
  ∀ w, P w → Q (m w).1 (m w).2.

Lemma hoare_conseq {A} (P P' : world → Prop) (m : M A) (Q Q' : result A → world → Prop) :
  hoare P' m Q' → (∀ w, P w → P' w) → (∀ r w, Q' r w → Q r w) → hoare P m Q.
Proof. intros H HP HQ w Hw. apply HQ, H, HP, Hw. Qed.

Lemma hoare_ret {A} (P : world → Prop) (a : A) :
  hoare P (mret a) (λ r w, r = Ok a ∧ P w).
Proof. by intros w H. Qed.

Lemma hoare_bind {A B} P R Q (m : M A) (k : A → M B) :
  hoare P m R →
  (∀ a, hoare (R (Ok a)) (k a) Q) →
  (∀ e w, R (Raise e) w → Q (Raise e) w) →
  hoare P (m ≫= k) Q.
Proof.
  intros Hm Hk He w H. unfold mbind, M_bind, bind.
  specialize (Hm w H). destruct (m w) as [[a|e] w']; simpl in *.
  - by apply Hk.
  - by apply He.
Qed.

(** The common case: the first command cannot raise and its result is
    known. *)
Lemma hoare_bind_ok {A B} P R Q (m : M A) (a : A) (k : A → M B) :
  hoare P m (λ r w, r = Ok a ∧ R w) →
  hoare R (k a) Q →
  hoare P (m ≫= k) Q.
Proof.
  intros Hm Hk. apply (hoare_bind P (λ r w, r = Ok a ∧ R w)); [done| |].
  - intros a' w [[= ->] Hw]. by apply Hk.
  - by intros e w [? _].
Qed.

Lemma hoare_try_sqlite {A} P R Q (m : M A) h :
  hoare P m R →
  (∀ msg, hoare (R (Raise (SqliteError msg))) (h msg) Q) →
  (∀ a w, R (Ok a) w → Q (Ok a) w) →
  (∀ msg w, R (Raise (OtherError msg)) w → Q (Raise (OtherError msg)) w) →
  hoare P (try_sqlite m h) Q.
Proof.
  intros Hm Hh Hok Hother w H. unfold try_sqlite.
  specialize (Hm w H). destruct (m w) as [[a|[msg|msg]] w']; simpl in *.
  - by apply Hok.
  - by apply Hh.
  - by apply Hother.
Qed.

Lemma hoare_and_preserves {A} P Q I (m : M A) :
  hoare P m Q → preserves I m →
  hoare (λ w, P w ∧ I w) m (λ r w, Q r w ∧ I w).
Proof. intros Hm HI w [HP Hw]. split; [by apply Hm|by apply HI]. Qed.

(** The assertion of the proofs below: the engine is healthy, the clock
    reads [now], the working copy is [d], and [R] holds of the file and of
    the transaction flag. *)
Definition holds (now : string) (d : database) (R : database → bool → Prop)
    (w : world) : Prop :=
  healthy w ∧ w_now w = now ∧ w_db w = d ∧ R (w_disk w) (w_in_txn w).

Definition any_file : database → bool → Prop := λ _ _, True.
Definition autocommit (d : database) : database → bool → Prop :=
  λ k b, k = d ∧ b = false.
Definition on_disk (k : database) : database → bool → Prop :=
  λ k' _, k' = k.

Lemma holds_stable now d R : stable (holds now d R).
Proof.
  intros w w' (Hdb & Hdisk & Htxn & Hnow & Hf) (H1 & H2 & H3 & H4).
  unfold holds, healthy. rewrite Hdb, Hdisk, Htxn, Hnow, Hf. done.
Qed.

Lemma hoare_print now d R line :
  hoare (holds now d R) (print line) (λ r w, r = Ok () ∧ holds now d R w).
Proof.
  intros w H. split; [done|]. by apply (holds_stable now d R w).
Qed.

Definition outcome_of (now : string) (s : stmt) (d : database) : result unit :=
  match engine now s d with
  | EOk _ _ => Ok ()
  | EError msg => Raise (SqliteError msg)
  end.

Definition result_rows (now : string) (s : stmt) (d : database) : list (list value) :=
  match engine now s d with
  | EOk rows _ => rows
  | EError _ => []
  end.

Lemma cursor_execute_healthy s w :
  healthy w →
  cursor_execute s w =
    match engine (w_now w) s (w_db w) with
    | EOk rows d' =>
        (Ok (),
         World d' (if negb (w_in_txn w || is_dml s) && is_ddl s then d' else w_disk w)
               (w_in_txn w || is_dml s) rows (w_now w) (w_faults w)
               (w_trace w ++ [s]) (w_out w))
    | EError msg =>
        (Raise (SqliteError msg),
         World (w_db w) (w_disk w) (w_in_txn w) [] (w_now w) (w_faults w)
               (w_trace w ++ [s]) (w_out w))
    end.
Proof.
  intros H. unfold cursor_execute, mbind, M_bind, bind, set_cursor, request.
  simpl. rewrite H. by destruct (engine _ _ _).
Qed.

(** Any statement, when only the working copy is followed. *)
Lemma hoare_cursor_execute now d s :
  hoare (holds now d any_file) (cursor_execute s)
    (λ r w, r = outcome_of now s d ∧ holds now (after now s d) any_file w
            ∧ w_cursor w = result_rows now s d).
Proof.
  intros w (Hh & <- & <- & _). rewrite cursor_execute_healthy by done.
  unfold outcome_of, after, result_rows, holds.
  by destruct (engine _ _ _).
Qed.

(** A statement that is not a data manipulation, outside a transaction: the
    file follows the working copy. *)
Lemma hoare_cursor_execute_auto now d s :
  is_dml s = false →
  hoare (holds now d (autocommit d)) (cursor_execute s)
    (λ r w, r = outcome_of now s d
            ∧ holds now (after now s d) (autocommit (after now s d)) w
            ∧ w_cursor w = result_rows now s d).
Proof.
  intros Hs w (Hh & <- & <- & Hk & Hb). rewrite cursor_execute_healthy by done.
  unfold outcome_of, after, result_rows, holds, autocommit.
  destruct (engine _ _ _) as [rows d'|msg] eqn:He; simpl; [|done].
  rewrite Hb, Hs. simpl. repeat split; try done.
  destruct (is_ddl s) eqn:Hddl; [done|].
  rewrite Hk. symmetry. by eapply engine_query_same.
Qed.

(** A statement that does not define schema leaves the file alone. *)
Lemma hoare_cursor_execute_disk now d k s :
  is_ddl s = false →
  hoare (holds now d (on_disk k)) (cursor_execute s)
    (λ r w, r = outcome_of now s d ∧ holds now (after now s d) (on_disk k) w
            ∧ w_cursor w = result_rows now s d).
Proof.
  intros Hs w (Hh & <- & <- & Hk). rewrite cursor_execute_healthy by done.
  unfold outcome_of, after, result_rows, holds, on_disk in *.
  destruct (engine _ _ _) as [rows d'|msg] eqn:He; simpl; [|done].
  rewrite Hs, andb_false_r. done.
Qed.

(** *** The inspection functions *)

Definition has_table (d : database) (t : string) : bool :=
  bool_decide (is_Some (db_tables d !! t)).

Definition has_index (d : database) (i : string) : bool :=
  bool_decide (is_Some (db_indexes d !! i)).

Definition has_column (d : database) (t c : string) : bool :=
  match db_tables d !! t with
  | Some tb => bool_decide (c ∈ column_names tb)
  | None => false
  end.

Lemma table_info_names (c : string) (cols : list column)
    (g : nat → column → list value) :
  (∀ i col, nth 1 (g i col) VNull = VText (col_name col)) →
  existsb (λ col, bool_decide (nth 1 col VNull = VText c)) (imap g cols)
  = bool_decide (c ∈ col_name <$> cols).
Proof.
  revert g. induction cols as [|col cols IH]; intros g Hg; simpl.
  - done.
  - rewrite IH by (intros; apply Hg). rewrite Hg.
    destruct (decide (col_name col = c)) as [->|Hne].
    + rewrite bool_decide_eq_true_2 by done. simpl.
      symmetry. apply bool_decide_eq_true. by left.
    + rewrite (bool_decide_eq_false_2 (VText _ = _)) by congruence. simpl.
      apply bool_decide_ext. rewrite elem_of_cons.
      split; [by right|]. by intros [->|].
Qed.

Lemma table_exists_healthy t w :
  healthy w →
  ∃ w', _table_exists t w = (Ok (has_table (w_db w) t), w')
        ∧ same_store w w' ∧ w_out w' = w_out w
        ∧ w_trace w' = w_trace w ++ [SelectMasterTable t].
Proof.
  intros H. unfold _table_exists, mbind, M_bind, bind.
  rewrite cursor_execute_healthy by done. simpl.
  unfold has_table, fetchone. simpl.
  case_bool_decide; simpl; eexists; (split; [reflexivity|]);
    unfold same_store; simpl; by rewrite orb_false_r, andb_false_r.
Qed.

Lemma index_exists_healthy i w :
  healthy w →
  ∃ w', _index_exists i w = (Ok (has_index (w_db w) i), w')
        ∧ same_store w w' ∧ w_out w' = w_out w
        ∧ w_trace w' = w_trace w ++ [SelectMasterIndex i].
Proof.
  intros H. unfold _index_exists, mbind, M_bind, bind.
  rewrite cursor_execute_healthy by done. simpl.
  unfold has_index, fetchone. simpl.
  case_bool_decide; simpl; eexists; (split; [reflexivity|]);
    unfold same_store; simpl; by rewrite orb_false_r, andb_false_r.
Qed.

Lemma column_exists_healthy t c w :
  healthy w → well_formed_name t = true →
  ∃ w', _column_exists t c w = (Ok (has_column (w_db w) t c), w')
        ∧ same_store w w' ∧ w_out w' = w_out w
        ∧ w_trace w' = w_trace w ++ [PragmaTableInfo t].
Proof.
  intros H Ht. unfold _column_exists, try_sqlite, mbind, M_bind, bind.
  rewrite cursor_execute_healthy by done. simpl. rewrite Ht. simpl.
  unfold has_column, table_info, mret, M_ret, ret.
  eexists. split.
  - f_equal. f_equal.
    destruct (db_tables (w_db w) !! t) as [tb|]; [|done].
    by apply table_info_names.
  - unfold same_store; simpl; by rewrite orb_false_r, andb_false_r.
Qed.

Lemma hoare_table_exists now d R t :
  hoare (holds now d R) (_table_exists t)
    (λ r w, r = Ok (has_table d t) ∧ holds now d R w).
Proof.
  intros w Hw. destruct (table_exists_healthy t w) as (w' & -> & Hs & _).
  { apply Hw. }
  simpl. split; [|by eapply holds_stable]. by destruct Hw as (_ & _ & -> & _).
Qed.

Lemma hoare_index_exists now d R i :
  hoare (holds now d R) (_index_exists i)
    (λ r w, r = Ok (has_index d i) ∧ holds now d R w).
Proof.
  intros w Hw. destruct (index_exists_healthy i w) as (w' & -> & Hs & _).
  { apply Hw. }
  simpl. split; [|by eapply holds_stable]. by destruct Hw as (_ & _ & -> & _).
Qed.

Lemma hoare_column_exists now d R t c :
  well_formed_name t = true →
  hoare (holds now d R) (_column_exists t c)
    (λ r w, r = Ok (has_column d t c) ∧ holds now d R w).
Proof.
  intros Ht w Hw.
  destruct (column_exists_healthy t c w) as (w' & -> & Hs & _); [apply Hw|done|].
  simpl. split; [|by eapply holds_stable]. by destruct Hw as (_ & _ & -> & _).
Qed.

(** *** Statement sequences *)

(** [cursor.execute(s1); ...; cursor.execute(sn)] *)
Fixpoint run_script (ss : list stmt) : M unit :=
  match ss with
  | [] => mret ()
  | s :: ss' =>
      match ss' with
      | [] => cursor_execute s
      | _ => _ ← cursor_execute s; run_script ss'
      end
  end.

(** The database such a sequence leaves; it stops at the first statement
    that fails. *)
Fixpoint exec_all (now : string) (ss : list stmt) (d : database) : database :=
  match ss with
  | [] => d
  | s :: ss' =>
      match engine now s d with
      | EOk _ d' => exec_all now ss' d'
      | EError _ => d
      end
  end.

Fixpoint script_outcome (now : string) (ss : list stmt) (d : database)
    : result unit :=
  match ss with
  | [] => Ok ()
  | s :: ss' =>
      match engine now s d with
      | EOk _ d' => script_outcome now ss' d'
      | EError msg => Raise (SqliteError msg)
      end
  end.

Definition base_ddl : list stmt :=
  [ CreateTableIfNotExists "app_info" app_info_columns;
    CreateTableIfNotExists "users" users_columns;
    CreateIndexIfNotExists "idx_users_username" "users" "username";
    CreateIndexIfNotExists "idx_users_email" "users" "email" ].

Definition seed_stmts : list stmt :=
  [ InsertOrReplaceKV "app_info" "project_name" "dsp_db";
    InsertOrReplaceKV "app_info" "version" "0.1.0";
    InsertOrReplaceKV "app_info" "author" "John Doe";
    InsertOrReplaceKV "app_info" "description" "" ].

Definition base_stmts : list stmt := base_ddl ++ seed_stmts.

Lemma create_base_schema_script : _create_base_schema = run_script base_stmts.
Proof. reflexivity. Qed.

Lemma exec_all_app now l1 l2 d :
  script_outcome now l1 d = Ok () →
  exec_all now (l1 ++ l2) d = exec_all now l2 (exec_all now l1 d).
Proof.
  revert d. induction l1 as [|s l1 IH]; intros d; simpl; [done|].
  destruct (engine now s d); [apply IH|done].
Qed.

Lemma exec_all_app_fail now l1 l2 d :
  script_outcome now l1 d ≠ Ok () →
  exec_all now (l1 ++ l2) d = exec_all now l1 d.
Proof.
  revert d. induction l1 as [|s l1 IH]; intros d; simpl; [done|].
  destruct (engine now s d); [apply IH|done].
Qed.

Lemma script_outcome_app now l1 l2 d :
  script_outcome now (l1 ++ l2) d =
    match script_outcome now l1 d with
    | Ok _ => script_outcome now l2 (exec_all now l1 d)
    | Raise e => Raise e
    end.
Proof.
  revert d. induction l1 as [|s l1 IH]; intros d; simpl; [done|].
  destruct (engine now s d); [apply IH|done].
Qed.

Lemma run_script_cons s ss w :
  run_script (s :: ss) w = (cursor_execute s ≫= λ _, run_script ss) w.
Proof.
  destruct ss as [|s' ss]; [|done]. simpl.
  unfold mbind, M_bind, bind. by destruct (cursor_execute s w) as [[[]|e] w'].
Qed.

Lemma run_script_app l1 l2 w :
  run_script (l1 ++ l2) w = (run_script l1 ≫= λ _, run_script l2) w.
Proof.
  revert w. induction l1 as [|s l1 IH]; intros w; [done|].
  rewrite <- app_comm_cons. unfold mbind, M_bind, bind in *.
  rewrite !run_script_cons. unfold mbind, M_bind, bind.
  destruct (cursor_execute s w) as [[[]|e] w']; [apply IH|done].
Qed.

(** A sequence run under an assertion [R d] on the file that each of its
    statements maintains. *)
Lemma hoare_run_script now (R : database → database → bool → Prop) ss :
  (∀ s d, s ∈ ss →
     hoare (holds now d (R d)) (cursor_execute s)
       (λ r w, r = outcome_of now s d
               ∧ holds now (after now s d) (R (after now s d)) w
               ∧ w_cursor w = result_rows now s d)) →
  ∀ d, hoare (holds now d (R d)) (run_script ss)
         (λ r w, r = script_outcome now ss d
                 ∧ holds now (exec_all now ss d) (R (exec_all now ss d)) w).
Proof.
  induction ss as [|s ss IH]; intros Hstep d w Hw; [done|].
  rewrite run_script_cons. unfold mbind, M_bind, bind.
  destruct (Hstep s d ltac:(by left) w Hw) as (Hr & Hw' & _).
  destruct (cursor_execute s w) as [r w']. simpl in Hr, Hw'. subst r.
  unfold outcome_of, after in *. simpl.
  destruct (engine now s d) as [rows d'|msg]; [|done].
  apply IH; [|done]. intros s' d'' Hin. apply Hstep. by right.
Qed.

(** *** The two paths of the reconciliation *)

Definition not_other {A} (r : result A) : Prop :=
  ∀ msg, r ≠ Raise (OtherError msg).

Lemma outcome_of_not_other now s d : not_other (outcome_of now s d).
Proof. intros msg. unfold outcome_of. by destruct (engine now s d). Qed.

Lemma script_outcome_not_other now ss d : not_other (script_outcome now ss d).
Proof.
  revert d. induction ss as [|s ss IH]; intros d msg; simpl; [done|].
  destruct (engine now s d); [apply IH|done].
Qed.

(** [try: body except sqlite3.Error as e: print(...)] never raises when the
    body raises nothing but [sqlite3.Error]. *)
Lemma hoare_swallow now d d' R body (f : string → string) :
  hoare (holds now d R) body (λ r w, not_other r ∧ holds now d' R w) →
  hoare (holds now d R) (try_sqlite body (λ e, print (f e)))
    (λ r w, r = Ok () ∧ holds now d' R w).
Proof.
  intros Hbody. eapply hoare_try_sqlite; [exact Hbody| | |].
  - intros msg w [_ Hw]. by apply hoare_print.
  - by intros [] w [_ Hw].
  - intros msg w [Hr _]. by destruct (Hr msg).
Qed.

Lemma hoare_guarded now d d' (b : bool) body (f : string → string) :
  hoare (holds now d any_file) body
    (λ r w, not_other r ∧ holds now d' any_file w) →
  hoare (holds now d any_file)
    (if negb b then try_sqlite body (λ e, print (f e)) else mret ())
    (λ r w, r = Ok () ∧ holds now (if b then d else d') any_file w).
Proof.
  intros Hbody. destruct b; simpl.
  - apply hoare_ret.
  - by apply hoare_swallow.
Qed.

Lemma hoare_body_exec now d s :
  hoare (holds now d any_file) (cursor_execute s)
    (λ r w, not_other r ∧ holds now (after now s d) any_file w).
Proof.
  intros w Hw. destruct (hoare_cursor_execute now d s w Hw) as (-> & H & _).
  split; [apply outcome_of_not_other|done].
Qed.

Lemma hoare_body_exec_print now d s line :
  hoare (holds now d any_file) (_ ← cursor_execute s; print line)
    (λ r w, not_other r ∧ holds now (after now s d) any_file w).
Proof.
  eapply hoare_bind; [apply hoare_cursor_execute| |].
  - intros [] w (_ & Hw & _). simpl in Hw.
    destruct (hoare_print now _ any_file line w Hw) as [-> H].
    split; [done|exact H].
  - intros e w (Hr & Hw & _). split; [|done].
    rewrite Hr. apply outcome_of_not_other.
Qed.

Lemma hoare_body_exec2_print now d s1 s2 line :
  hoare (holds now d any_file)
    (_ ← cursor_execute s1; _ ← cursor_execute s2; print line)
    (λ r w, not_other r ∧ holds now (exec_all now [s1; s2] d) any_file w).
Proof.
  eapply hoare_bind; [apply hoare_cursor_execute| |].
  - intros [] w (Hr & Hw & _). simpl in Hw. unfold outcome_of, after in *.
    simpl. destruct (engine now s1 d) as [rows d1|msg]; [|done].
    by apply hoare_body_exec_print.
  - intros e w (Hr & Hw & _). unfold outcome_of, after in *.
    simpl. destruct (engine now s1 d) as [rows d1|msg]; [done|].
    injection Hr as ->. done.
Qed.

Lemma hoare_body_script now d ss :
  hoare (holds now d any_file) (run_script ss)
    (λ r w, not_other r ∧ holds now (exec_all now ss d) any_file w).
Proof.
  intros w Hw.
  destruct (hoare_run_script now (λ _, any_file) ss
              (λ s d' _, hoare_cursor_execute now d' s) d w Hw) as [-> H].
  split; [apply script_outcome_not_other|done].
Qed.

Arguments exec_all : simpl never.
Arguments script_outcome : simpl never.

(** The working copy after each step of the incremental path. *)
Definition hash_step (now : string) (d : database) : database :=
  if has_column d "users" "password_hash" then d
  else exec_all now [ AlterTableAddColumn "users" "password_hash" "TEXT";
                      UpdateCoalesce "users" "password_hash" "" ] d.

Definition login_step (now : string) (d : database) : database :=
  if has_column d "users" "last_login" then d
  else after now (AlterTableAddColumn "users" "last_login" "TIMESTAMP") d.

Definition index_step (now : string) (i c : string) (d : database) : database :=
  if has_index d i then d
  else after now (CreateIndexIfNotExists i "users" c) d.

Definition app_info_step (now : string) (d : database) : database :=
  if has_table d "app_info" then d
  else after now (CreateTableIfNotExists "app_info" app_info_columns) d.

Definition structure_db (now : string) (d : database) : database :=
  app_info_step now
    (index_step now "idx_users_email" "email"
       (index_step now "idx_users_username" "username"
          (login_step now (hash_step now d)))).

Definition incremental_db (now : string) (d : database) : database :=
  exec_all now seed_stmts (structure_db now d).

Ltac in_list H :=
  repeat (apply elem_of_cons in H as [->|H]; [reflexivity|]);
  by apply elem_of_nil in H.

Lemma hoare_create_base_schema now d :
  hoare (holds now d (autocommit d)) _create_base_schema
    (λ r w, r = script_outcome now base_stmts d
            ∧ holds now (exec_all now base_stmts d)
                    (on_disk (exec_all now base_ddl d)) w).
Proof.
  rewrite create_base_schema_script. unfold base_stmts.
  intros w Hw. rewrite run_script_app.
  unfold mbind, M_bind, bind.
  destruct (hoare_run_script now autocommit base_ddl) with (d := d) (w := w)
    as [Hr Hw1]; [|done|].
  { intros s d' Hs. apply hoare_cursor_execute_auto.
    unfold base_ddl in Hs. in_list Hs. }
  destruct (run_script base_ddl w) as [r w1]. cbn [fst snd] in Hr, Hw1. subst r.
  rewrite script_outcome_app.
  destruct (script_outcome now base_ddl d) as [[]|e] eqn:Hddl.
  - rewrite exec_all_app by done.
    apply (hoare_run_script now (λ _, on_disk (exec_all now base_ddl d))).
    + intros s d' Hs. apply hoare_cursor_execute_disk.
      unfold seed_stmts in Hs. in_list Hs.
    + destruct Hw1 as (? & ? & ? & ? & ?). done.
  - rewrite exec_all_app_fail by congruence. cbn [fst snd]. split; [done|].
    destruct Hw1 as (? & ? & ? & ? & ?). done.
Qed.

Lemma hoare_migrate_existing_db now d :
  hoare (holds now d (autocommit d)) _migrate_existing_db
    (λ r w, if has_table d "users"
            then r = Ok () ∧ holds now (incremental_db now d) any_file w
            else r = script_outcome now base_stmts d
                 ∧ holds now (exec_all now base_stmts d)
                         (on_disk (exec_all now base_ddl d)) w).
Proof.
  unfold _migrate_existing_db.
  eapply hoare_bind_ok; [apply hoare_table_exists|].
  destruct (has_table d "users"); simpl; [|apply hoare_create_base_schema].
  eapply hoare_conseq with (P' := holds now d any_file);
    [|by intros w (? & ? & ? & _)|intros r w H; exact H].
  unfold incremental_db, structure_db.
  eapply hoare_bind_ok; [by apply hoare_column_exists|].
  eapply hoare_bind_ok; [apply hoare_guarded, hoare_body_exec2_print|].
  fold (hash_step now d).
  eapply hoare_bind_ok; [by apply hoare_column_exists|].
  eapply hoare_bind_ok; [apply hoare_guarded, hoare_body_exec_print|].
  fold (login_step now (hash_step now d)).
  eapply hoare_bind_ok; [apply hoare_index_exists|].
  eapply hoare_bind_ok; [apply hoare_guarded, hoare_body_exec|].
  fold (index_step now "idx_users_username" "username"
          (login_step now (hash_step now d))).
  eapply hoare_bind_ok; [apply hoare_index_exists|].
  eapply hoare_bind_ok; [apply hoare_guarded, hoare_body_exec|].
  fold (index_step now "idx_users_email" "email"
          (index_step now "idx_users_username" "username"
             (login_step now (hash_step now d)))).
  eapply hoare_bind_ok; [apply hoare_table_exists|].
  eapply hoare_bind_ok; [apply hoare_guarded, hoare_body_exec|].
  fold (app_info_step now
          (index_step now "idx_users_email" "email"
             (index_step now "idx_users_username" "username"
                (login_step now (hash_step now d))))).
  apply hoare_swallow. apply (hoare_body_script now _ seed_stmts).
Qed.

(** *** The whole run *)

Lemma conn_execute_query_healthy s w :
  healthy w → is_dml s = false → is_ddl s = false →
  succeeds (w_now w) s (w_db w) = true →
  ∃ w', conn_execute s w = (Ok (), w') ∧ same_store w w'
        ∧ w_out w' = w_out w ∧ w_cursor w' = w_cursor w.
Proof.
  intros H Hdml Hddl Hok.
  unfold conn_execute, mbind, M_bind, bind, request. rewrite H.
  unfold succeeds in Hok.
  destruct (engine (w_now w) s (w_db w)) as [rows d'|msg] eqn:He; [|done].
  eexists. split; [reflexivity|].
  rewrite (engine_query_same _ _ _ _ _ Hdml Hddl He), Hdml, Hddl.
  unfold same_store. simpl. by rewrite orb_false_r, andb_false_r.
Qed.

Lemma hoare_enable_foreign_keys now d R :
  hoare (holds now d R) _enable_foreign_keys
    (λ r w, r = Ok () ∧ holds now d R w).
Proof.
  intros w Hw. unfold _enable_foreign_keys, try_sqlite.
  destruct (conn_execute_query_healthy PragmaForeignKeysOn w)
    as (w' & -> & Hs & _); try done; [apply Hw|].
  split; [done|]. by eapply holds_stable.
Qed.

Lemma hoare_sanity_check now d R :
  hoare (holds now d R)
    (try_any (_ ← conn_execute SelectOne;
              print "Database is accessible and working.")
             (λ e, print ("Warning: Database exists but may be corrupted: " +:+ e)))
    (λ r w, r = Ok () ∧ holds now d R w).
Proof.
  intros w Hw. unfold try_any, mbind, M_bind, bind.
  destruct (conn_execute_query_healthy SelectOne w)
    as (w' & -> & Hs & _); try done; [apply Hw|].
  apply hoare_print. by eapply holds_stable.
Qed.

Lemma hoare_commit now d R :
  hoare (λ w, holds now d R w ∧ coherent w) commit
    (λ r w, r = Ok () ∧ holds now d (on_disk d) w).
Proof.
  intros w [(Hh & Hnow & Hdb & _) Hco]. unfold commit.
  destruct (w_in_txn w) eqn:Htxn.
  - rewrite Hh. done.
  - split; [done|]. repeat split; try done. unfold on_disk. simpl.
    rewrite <- Hdb. by apply Hco.
Qed.

Lemma hoare_gather_count_tables now d R :
  hoare (holds now d R) (gather_count CountUserTables)
    (λ r w, r = Ok (VInt (count_user_tables d)) ∧ holds now d R w).
Proof.
  intros w Hw. pose proof Hw as (Hh & <- & <- & _).
  unfold gather_count, try_sqlite, mbind, M_bind, bind.
  rewrite cursor_execute_healthy by done. simpl.
  split; [done|]. eapply holds_stable; [|exact Hw].
  unfold same_store. simpl. by rewrite orb_false_r, andb_false_r.
Qed.

Definition count_app_info (d : database) : value :=
  match db_tables d !! "app_info" with
  | Some tb => VInt (Z.of_nat (length (tbl_rows tb)))
  | None => VInt 0
  end.

Lemma hoare_gather_count_rows now d R :
  hoare (holds now d R) (gather_count (CountRows "app_info"))
    (λ r w, r = Ok (count_app_info d) ∧ holds now d R w).
Proof.
  intros w Hw. pose proof Hw as (Hh & <- & <- & _).
  unfold gather_count, try_sqlite, mbind, M_bind, bind.
  rewrite cursor_execute_healthy by done. simpl.
  unfold count_rows, count_app_info.
  destruct (db_tables (w_db w) !! "app_info") as [tb|]; simpl.
  - split; [done|]. eapply holds_stable; [|exact Hw].
    unfold same_store. simpl. by rewrite orb_false_r, andb_false_r.
  - split; [done|]. by eapply holds_stable; [|exact Hw].
Qed.

(** The file a run on a healthy engine leaves. *)
Definition fresh_db (now : string) (d : database) : database :=
  match script_outcome now base_stmts d with
  | Ok _ => exec_all now base_stmts d
  | Raise _ => exec_all now base_ddl d
  end.

Definition migrated_db (now : string) (d : database) : database :=
  if has_table d "users" then incremental_db now d else fresh_db now d.

Definition reconciled (now : string) (file : option database) : database :=
  match file with
  | None => fresh_db now empty_db
  | Some d => migrated_db now d
  end.

(** How the structural part ends: the incremental path always completes,
    the fresh path raises when one of its statements fails. *)
Definition structure_outcome (now : string) (file : option database)
    : result unit :=
  match file with
  | None => script_outcome now base_stmts empty_db
  | Some d =>
      if has_table d "users" then Ok ()
      else script_outcome now base_stmts d
  end.

Definition env_healthy (e : env) : Prop :=
  env_connect_error e = None ∧ ∀ n, env_faults e n = false.

Lemma autocommit_coherent now d w : holds now d (autocommit d) w → coherent w.
Proof. intros (_ & _ & Hdb & Hk & _) _. by rewrite Hk, Hdb. Qed.

Lemma hoare_structure now file p :
  let d := default empty_db file in
  hoare (holds now d (autocommit d))
    (if bool_decide (file ≠ None) then
       _ ← print ("SQLite database already exists at " +:+ p);
       _ ← try_any
             (_ ← conn_execute SelectOne;
              print "Database is accessible and working.")
             (λ e, print ("Warning: Database exists but may be corrupted: " +:+ e));
       _migrate_existing_db
     else
       _ ← print "Creating new SQLite database...";
       _create_base_schema)
    (λ r w, r = structure_outcome now file
            ∧ match r with
              | Ok _ => holds now (reconciled now file) any_file w ∧ coherent w
              | Raise _ => w_disk w = reconciled now file
              end).
Proof.
  intros d.
  set (Q := λ (r : result unit) (w : world),
         r = structure_outcome now file
         ∧ match r with
           | Ok _ => holds now (reconciled now file) any_file w
           | Raise _ => w_disk w = reconciled now file
           end).
  eapply hoare_conseq with
    (P' := λ w, holds now d (autocommit d) w ∧ coherent w)
    (Q' := λ r w, Q r w ∧ coherent w).
  2:{ intros w Hw. split; [done|]. by eapply autocommit_coherent. }
  2:{ intros r w [[Hr HQ] Hco]. split; [done|]. by destruct r. }
  apply hoare_and_preserves.
  2:{ destruct file; simpl.
      - apply preserves_bind; [apply preserves_print, coherent_stable|intros ?].
        apply preserves_bind; [|intros ?].
        + apply preserves_try_any; [|intros ?; apply preserves_print, coherent_stable].
          apply preserves_bind;
            [apply preserves_conn_execute, coherent_request
            |intros ?; apply preserves_print, coherent_stable].
        + apply preserves_migrate_existing_db;
            [apply coherent_stable|apply coherent_request].
      - apply preserves_bind; [apply preserves_print, coherent_stable|intros ?].
        apply preserves_create_base_schema;
          [apply coherent_stable|apply coherent_request]. }
  unfold Q. destruct file as [d0|]; simpl in *.
  - change (bool_decide (Some d0 ≠ None)) with true. simpl.
    eapply hoare_bind_ok; [apply hoare_print|].
    eapply hoare_bind_ok; [apply hoare_sanity_check|].
    eapply hoare_conseq; [apply hoare_migrate_existing_db|done|].
    intros r w. unfold migrated_db, fresh_db. subst d.
    destruct (has_table d0 "users").
    + intros [Hr H]. by subst r.
    + intros [-> H].
      destruct (script_outcome now base_stmts d0) as [[]|e].
      * split; [reflexivity|]. destruct H as (Hh & Hn & Hd & _).
        repeat split; assumption.
      * split; [reflexivity|]. destruct H as (_ & _ & _ & Hk). exact Hk.
  - change (bool_decide (None ≠ None)) with false. simpl.
    eapply hoare_bind_ok; [apply hoare_print|].
    eapply hoare_conseq; [apply hoare_create_base_schema|done|].
    intros r w [-> H]. unfold fresh_db. subst d.
    destruct (script_outcome now base_stmts empty_db) as [[]|e].
    + split; [reflexivity|]. destruct H as (Hh & Hn & Hd & _).
      repeat split; assumption.
    + split; [reflexivity|]. destruct H as (_ & _ & _ & Hk). exact Hk.
Qed.

Lemma hoare_main_connected now file p :
  let d := default empty_db file in
  hoare (holds now d (autocommit d))
    (main_connected (bool_decide (file ≠ None)) p)
    (λ r w, w_disk w = reconciled now file
            ∧ match structure_outcome now file with
              | Ok _ =>
                  r = Ok (VInt (count_user_tables (reconciled now file)),
                          count_app_info (reconciled now file))
              | Raise e => r = Raise e
              end).
Proof.
  intros d. unfold main_connected.
  eapply hoare_bind_ok; [apply hoare_enable_foreign_keys|].
  eapply hoare_bind; [apply hoare_structure| |].
  - intros [] w [Hso [Hw Hco]]. rewrite <- Hso.
    assert (hoare (λ w, holds now (reconciled now file) any_file w ∧ coherent w)
              (_ ← commit;
               table_count ← gather_count CountUserTables;
               record_count ← gather_count (CountRows "app_info");
               mret (table_count, record_count))
              (λ r w, r = Ok (VInt (count_user_tables (reconciled now file)),
                              count_app_info (reconciled now file))
                      ∧ holds now (reconciled now file)
                              (on_disk (reconciled now file)) w)) as Hchain.
    { eapply hoare_bind_ok; [apply hoare_commit|].
      eapply hoare_bind_ok; [apply hoare_gather_count_tables|].
      eapply hoare_bind_ok; [apply hoare_gather_count_rows|].
      apply hoare_ret. }
    destruct (Hchain w (conj Hw Hco)) as [Hr Hfin].
    split; [apply Hfin|exact Hr].
  - intros e w [Hso Hdisk]. rewrite <- Hso. by split.
Qed.

(** The report after the connection is closed raises only when the viewer
    directory cannot be created. *)
Definition report_result (e : env) : result Z :=
  match env_viewer_dir_exists e, env_makedirs_error e with
  | false, Some msg => Raise (OtherError msg)
  | _, _ => Ok 0
  end.

Definition anywhere : world → Prop := λ _, True.

Lemma hoare_print_anywhere line :
  hoare anywhere (print line) (λ r w, r = Ok () ∧ anywhere w).
Proof. by intros w _. Qed.

Lemma hoare_write_connection_info e p :
  hoare anywhere (_write_connection_info e p) (λ r w, r = Ok () ∧ anywhere w).
Proof.
  unfold _write_connection_info. intros w _.
  by destruct (env_conn_info_error e).
Qed.

Lemma hoare_write_sqlite_env e path :
  hoare anywhere (_write_sqlite_env e path)
    (λ r w, r = match report_result e with
                | Ok _ => Ok ()
                | Raise ex => Raise ex
                end).
Proof.
  unfold _write_sqlite_env, report_result. intros w _.
  by destruct (env_viewer_dir_exists e), (env_makedirs_error e),
    (env_sqlite_env_error e).
Qed.

Lemma main_report_result e p counts w :
  (main_report e p counts w).1 = report_result e.
Proof.
  revert w.
  cut (hoare anywhere (main_report e p counts) (λ r w, r = report_result e)).
  { intros H w. by apply H. }
  unfold main_report.
  eapply hoare_bind_ok; [apply hoare_write_connection_info|].
  eapply hoare_bind; [apply hoare_write_sqlite_env| |].
  - intros [].
    destruct (report_result e) as [code|ex] eqn:Hrr; [|by intros w ?].
    assert (code = 0) as ->.
    { unfold report_result in Hrr.
      destruct (env_viewer_dir_exists e), (env_makedirs_error e); congruence. }
    eapply hoare_conseq with (P' := anywhere)
                             (Q' := λ r w, r = Ok 0 ∧ anywhere w);
      [|done|by intros ? ? [? _]].
    do 11 (eapply hoare_bind_ok; [apply hoare_print_anywhere|]).
    eapply hoare_bind_ok with (a := ()) (R := anywhere).
    { destruct (env_sqlite_cli e); [|by intros w _].
      do 2 (eapply hoare_bind_ok; [apply hoare_print_anywhere|]).
      apply hoare_print_anywhere. }
    eapply hoare_bind_ok; [apply hoare_print_anywhere|].
    apply hoare_ret.
  - intros ex w Hr. destruct (report_result e); congruence.
Qed.

Lemma disk_stable k : stable (λ w, w_disk w = k).
Proof. intros w w' (_ & Hdisk & _) H. by rewrite Hdisk. Qed.

Lemma main_report_disk e p counts w :
  w_disk (main_report e p counts w).2 = w_disk w.
Proof. by apply (preserves_main_report _ (disk_stable (w_disk w))). Qed.

Definition finish (e : env) (r : result unit) : outcome :=
  match r with
  | Raise ex => Uncaught ex
  | Ok _ =>
      match report_result e with
      | Ok code => Returned code
      | Raise ex => Uncaught ex
      end
  end.

(** A run on a healthy engine: the file it leaves and how it ends. *)
Lemma main_healthy e p file :
  env_healthy e →
  run_file (main e p file) = Some (reconciled (env_now e) file)
  ∧ run_outcome (main e p file)
    = finish e (structure_outcome (env_now e) file).
Proof.
  intros [Hconn Hfaults]. unfold main. rewrite Hconn.
  set (w1 := (print _ _).2).
  assert (H1 : holds (env_now e) (default empty_db file)
                 (autocommit (default empty_db file)) w1) by done.
  destruct (hoare_main_connected (env_now e) file (db_file_or_default p) w1 H1)
    as [Hdisk Hr].
  destruct (main_connected _ _ w1) as [r w2]. simpl in Hdisk, Hr.
  unfold finish.
  destruct (structure_outcome (env_now e) file) as [[]|ex]; subst r.
  - pose proof (main_report_result e (db_file_or_default p)
        (VInt (count_user_tables (reconciled (env_now e) file)),
         count_app_info (reconciled (env_now e) file)) w2) as Hrep.
    pose proof (main_report_disk e (db_file_or_default p)
        (VInt (count_user_tables (reconciled (env_now e) file)),
         count_app_info (reconciled (env_now e) file)) w2) as Hd.
    destruct (main_report e _ _ w2) as [r3 w3]. simpl in Hrep, Hd.
    rewrite <- Hrep. destruct r3; simpl; by rewrite Hd, Hdisk.
  - simpl. by rewrite Hdisk.
Qed.

(** ** The reconciliation at the level of schemas

    Which structural statements succeed, and the schema they leave, depends
    on the schema alone.  [reconciled_schema] summarises a run on a healthy
    engine at that level. *)

Definition names (cols : list column) : list string := col_name <$> cols.

Definition create_table_schema (t : string) (cols : list column)
    (S : gmap string (list column) * gmap string index)
    : gmap string (list column) * gmap string index :=
  match S.1 !! t with
  | Some _ => S
  | None => (<[t := cols]> S.1, S.2)
  end.

Definition create_index_schema (i t c : string)
    (S : gmap string (list column) * gmap string index)
    : option (gmap string (list column) * gmap string index) :=
  match S.1 !! t with
  | None => None
  | Some cols =>
      match S.2 !! i with
      | Some _ => Some S
      | None =>
          if bool_decide (c ∈ names cols)
          then Some (S.1, <[i := Index t c]> S.2)
          else None
      end
  end.

Definition add_column_schema (t c ty : string)
    (S : gmap string (list column) * gmap string index)
    : option (gmap string (list column) * gmap string index) :=
  match S.1 !! t with
  | None => None
  | Some cols =>
      if bool_decide (c ∈ names cols) then None
      else Some (<[t := cols ++ [added_column c ty]]> S.1, S.2)
  end.

Definition schema_step (s : stmt)
    (S : gmap string (list column) * gmap string index)
    : option (gmap string (list column) * gmap string index) :=
  match s with
  | CreateTableIfNotExists t cols => Some (create_table_schema t cols S)
  | CreateIndexIfNotExists i t c => create_index_schema i t c S
  | AlterTableAddColumn t c ty => add_column_schema t c ty S
  | _ => Some S
  end.

Definition schema_after (s : stmt)
    (S : gmap string (list column) * gmap string index)
    : gmap string (list column) * gmap string index :=
  default S (schema_step s S).

Lemma engine_schema_step now s d :
  is_ddl s = true →
  match engine now s d with
  | EOk _ d' => schema_step s (schema_of d) = Some (schema_of d')
  | EError _ => schema_step s (schema_of d) = None
  end.
Proof.
  destruct s; try done; intros _; simpl.
  - unfold create_table_if_not_exists, create_table_schema. simpl.
    rewrite tables_schema_lookup.
    destruct (db_tables d !! t) as [tb|]; simpl; [done|].
    unfold schema_of. by rewrite tables_schema_set_table.
  - unfold create_index_if_not_exists, create_index_schema. simpl.
    rewrite tables_schema_lookup.
    destruct (db_tables d !! t) as [tb|]; simpl; [|done].
    destruct (db_indexes d !! i); [done|].
    unfold names, column_names. by case_bool_decide.
  - unfold alter_table_add_column, add_column_schema. simpl.
    rewrite tables_schema_lookup.
    destruct (db_tables d !! t) as [tb|]; simpl; [|done].
    unfold names, column_names. case_bool_decide; [done|].
    unfold schema_of. by rewrite tables_schema_set_table.
Qed.

Lemma after_schema now s d :
  schema_of (after now s d) = schema_after s (schema_of d).
Proof.
  unfold schema_after.
  destruct (is_ddl s) eqn:Hddl.
  - pose proof (engine_schema_step now s d Hddl) as H. unfold after.
    destruct (engine now s d); by rewrite H.
  - destruct (is_dml s) eqn:Hdml.
    + rewrite after_dml_schema by done. by destruct s.
    + rewrite after_query by done. by destruct s.
Qed.

(** A sequence of schema statements, stopped at the first failure. *)
Fixpoint schema_exec_all (ss : list stmt)
    (S : gmap string (list column) * gmap string index)
    : gmap string (list column) * gmap string index :=
  match ss with
  | [] => S
  | s :: ss' =>
      match schema_step s S with
      | Some S' => schema_exec_all ss' S'
      | None => S
      end
  end.

Lemma exec_all_ddl_schema now ss d :
  Forall (λ s, is_ddl s = true) ss →
  schema_of (exec_all now ss d) = schema_exec_all ss (schema_of d).
Proof.
  intros Hss. revert d. induction Hss as [|s ss Hs _ IH]; intros d; [done|].
  unfold exec_all; fold exec_all. simpl.
  pose proof (engine_schema_step now s d Hs) as H.
  destruct (engine now s d); rewrite H; [apply IH|done].
Qed.

Lemma exec_all_dml_schema now ss d :
  Forall (λ s, is_dml s = true) ss →
  schema_of (exec_all now ss d) = schema_of d.
Proof.
  intros Hss. revert d. induction Hss as [|s ss Hs _ IH]; intros d; [done|].
  unfold exec_all; fold exec_all.
  destruct (engine now s d) eqn:He; [|done].
  rewrite IH. by eapply engine_dml_schema.
Qed.

Lemma seed_stmts_dml : Forall (λ s, is_dml s = true) seed_stmts.
Proof. by repeat constructor. Qed.

Lemma base_ddl_ddl : Forall (λ s, is_ddl s = true) base_ddl.
Proof. by repeat constructor. Qed.

Definition schema_has_column
    (S : gmap string (list column) * gmap string index) (t c : string) : bool :=
  match S.1 !! t with
  | Some cols => bool_decide (c ∈ names cols)
  | None => false
  end.

Lemma has_column_schema d t c :
  has_column d t c = schema_has_column (schema_of d) t c.
Proof.
  unfold has_column, schema_has_column. simpl. rewrite tables_schema_lookup.
  by destruct (db_tables d !! t).
Qed.

Lemma has_table_schema d t :
  has_table d t = bool_decide (is_Some ((schema_of d).1 !! t)).
Proof.
  unfold has_table. simpl. rewrite tables_schema_lookup.
  apply bool_decide_ext. by rewrite fmap_is_Some.
Qed.

Definition hash_schema (S : gmap string (list column) * gmap string index) :=
  if schema_has_column S "users" "password_hash" then S
  else schema_after (AlterTableAddColumn "users" "password_hash" "TEXT") S.

Definition login_schema (S : gmap string (list column) * gmap string index) :=
  if schema_has_column S "users" "last_login" then S
  else schema_after (AlterTableAddColumn "users" "last_login" "TIMESTAMP") S.

Definition index_schema (i c : string)
    (S : gmap string (list column) * gmap string index) :=
  if bool_decide (is_Some (S.2 !! i)) then S
  else schema_after (CreateIndexIfNotExists i "users" c) S.

Definition app_info_schema (S : gmap string (list column) * gmap string index) :=
  if bool_decide (is_Some (S.1 !! "app_info")) then S
  else schema_after (CreateTableIfNotExists "app_info" app_info_columns) S.

Definition structure_schema (S : gmap string (list column) * gmap string index) :=
  app_info_schema
    (index_schema "idx_users_email" "email"
       (index_schema "idx_users_username" "username"
          (login_schema (hash_schema S)))).

Definition migrated_schema (S : gmap string (list column) * gmap string index) :=
  if bool_decide (is_Some (S.1 !! "users")) then structure_schema S
  else schema_exec_all base_ddl S.

Definition reconciled_schema
    (F : option (gmap string (list column) * gmap string index)) :=
  match F with
  | None => schema_exec_all base_ddl (schema_of empty_db)
  | Some sch => migrated_schema sch
  end.

Lemma hash_step_schema now d :
  schema_of (hash_step now d) = hash_schema (schema_of d).
Proof.
  unfold hash_step, hash_schema. rewrite has_column_schema.
  destruct (schema_has_column _ _ _); [done|].
  rewrite <- (after_schema now). unfold after, exec_all.
  destruct (engine now (AlterTableAddColumn _ _ _) d) as [rows d1|] eqn:H1; [|done].
  destruct (engine now (UpdateCoalesce _ _ _) d1) as [rows2 d2|] eqn:H2; [|done].
  by apply (engine_dml_schema now (UpdateCoalesce "users" "password_hash" "")
              d1 rows2 d2).
Qed.

Lemma login_step_schema now d :
  schema_of (login_step now d) = login_schema (schema_of d).
Proof.
  unfold login_step, login_schema. rewrite has_column_schema.
  destruct (schema_has_column _ _ _); [done|]. apply after_schema.
Qed.

Lemma index_step_schema now i c d :
  schema_of (index_step now i c d) = index_schema i c (schema_of d).
Proof.
  unfold index_step, index_schema, has_index. simpl.
  case_bool_decide; [done|]. apply after_schema.
Qed.

Lemma app_info_step_schema now d :
  schema_of (app_info_step now d) = app_info_schema (schema_of d).
Proof.
  unfold app_info_step, app_info_schema. rewrite has_table_schema.
  case_bool_decide; [done|]. apply after_schema.
Qed.

Lemma structure_db_schema now d :
  schema_of (structure_db now d) = structure_schema (schema_of d).
Proof.
  unfold structure_db, structure_schema.
  by rewrite app_info_step_schema, !index_step_schema, login_step_schema,
    hash_step_schema.
Qed.

Lemma incremental_db_schema now d :
  schema_of (incremental_db now d) = structure_schema (schema_of d).
Proof.
  unfold incremental_db.
  rewrite exec_all_dml_schema by apply seed_stmts_dml.
  apply structure_db_schema.
Qed.

Lemma fresh_db_schema now d :
  schema_of (fresh_db now d) = schema_exec_all base_ddl (schema_of d).
Proof.
  unfold fresh_db, base_stmts. rewrite script_outcome_app.
  destruct (script_outcome now base_ddl d) as [[]|e] eqn:Hddl.
  - destruct (script_outcome now seed_stmts _);
      [rewrite exec_all_app by done;
       rewrite exec_all_dml_schema by apply seed_stmts_dml|];
      apply exec_all_ddl_schema, base_ddl_ddl.
  - apply exec_all_ddl_schema, base_ddl_ddl.
Qed.

Lemma reconciled_schema_of now file :
  schema_of (reconciled now file) = reconciled_schema (schema_of <$> file).
Proof.
  destruct file as [d|]; simpl.
  - unfold migrated_db, migrated_schema. rewrite has_table_schema.
    case_bool_decide.
    + apply incremental_db_schema.
    + apply fresh_db_schema.
  - apply fresh_db_schema.
Qed.

(** *** A reconciled schema is a fixed point *)















(** *** From schemas back to tables *)

Lemma tables_schema_Some d t cols :
  tables_schema d !! t = Some cols →
  ∃ tb, db_tables d !! t = Some tb ∧ tbl_columns tb = cols.
Proof.
  rewrite tables_schema_lookup.
  destruct (db_tables d !! t) as [tb|]; [|done].
  intros [= <-]. by exists tb.
Qed.

(** *** What the incremental path does to the tables *)













(** *** The statements a script sends *)








(** *** Upserts into [app_info] as the script declares it *)














(** *** Inspections when the engine refuses the catalog query *)

Lemma table_exists_refused t w :
  w_faults w (length (w_trace w)) = true →
  (_table_exists t w).1 = Raise (SqliteError "disk I/O error")
  ∧ w_out (_table_exists t w).2 = w_out w.
Proof.
  intros Hf. unfold _table_exists, mbind, M_bind, bind.
  unfold cursor_execute, mbind, M_bind, bind, set_cursor, request. simpl.
  by rewrite Hf.
Qed.

Lemma index_exists_refused i w :
  w_faults w (length (w_trace w)) = true →
  (_index_exists i w).1 = Raise (SqliteError "disk I/O error")
  ∧ w_out (_index_exists i w).2 = w_out w.
Proof.
  intros Hf. unfold _index_exists, mbind, M_bind, bind.
  unfold cursor_execute, mbind, M_bind, bind, set_cursor, request. simpl.
  by rewrite Hf.
Qed.

Lemma column_exists_refused t c w :
  w_faults w (length (w_trace w)) = true →
  (_column_exists t c w).1 = Ok false
  ∧ w_out (_column_exists t c w).2
    = w_out w ++ ["Warning: could not inspect columns for " +:+ t
                  +:+ ": disk I/O error"].
Proof.
  intros Hf. unfold _column_exists, try_sqlite, mbind, M_bind, bind.
  unfold cursor_execute, mbind, M_bind, bind, set_cursor, request. simpl.
  by rewrite Hf.
Qed.

(** *** The codes [main] returns *)

Lemma main_returned_codes (e : env) (p : option string)
    (file : option database) (code : Z) :
  run_outcome (main e p file) = Returned code →
  (code = 1 ∧ env_connect_error e ≠ None)
  ∨ (code = 0 ∧ env_connect_error e = None).
Proof.
  unfold main. destruct (env_connect_error e) as [msg|].
  { intros [= <-]. by left. }
  destruct (main_connected _ _ _) as [[counts|ex] w2]; [|done].
  pose proof (main_report_result e (db_file_or_default p) counts w2) as Hrep.
  destruct (main_report e _ counts w2) as [[c|ex] w3]; [|done].
  simpl in Hrep. intros [= <-]. right. split; [|done].
  unfold report_result in Hrep.
  destruct (env_viewer_dir_exists e), (env_makedirs_error e); congruence.
Qed.

(** ** Example files and environments *)

(** An environment for examples: the engine opens and serves the file, the
    report files can be written. *)
Definition calm_env (now : string) : env :=
  Env None now no_faults "/srv/dsp_db" None true None None false.

Lemma calm_env_healthy now : env_healthy (calm_env now).
Proof. by split. Defined.

Definition legacy_users_columns : list column :=
  [ Column "id" "INTEGER" false false PkAutoincrement DfltNone;
    Column "username" "TEXT" true true NotPk DfltNone;
    Column "email" "TEXT" true true NotPk DfltNone;
    Column "created_at" "TIMESTAMP" false false NotPk DfltCurrentTimestamp ].

Definition legacy_users : table :=
  Table legacy_users_columns 2
    [ {[ "id" := VInt 1; "username" := VText "ada";
         "email" := VText "ada@example.org";
         "created_at" := VText "2024-01-05 10:00:00" ]};
      {[ "id" := VInt 2; "username" := VText "bob";
         "email" := VText "bob@example.org";
         "created_at" := VText "2024-02-11 16:30:00" ]} ].

Definition legacy_db : database := Database {[ "users" := legacy_users ]} ∅.

(** A file of another application: an [app_info] table of its own shape and
    no [users] table. *)
Definition foreign_app_info : table :=
  Table [ Column "id" "INTEGER" false false PkRowid DfltNone;
          Column "name" "TEXT" false false NotPk DfltNone ] 0 [].

Definition foreign_db : database :=
  Database {[ "app_info" := foreign_app_info ]} ∅.

(** An engine that refuses the [n]-th request of the connection. *)
Definition failing_at (n : nat) (now : string) : env :=
  Env None now (λ i, bool_decide (i = n)) "/srv/dsp_db" None true None None false.

Definition notes_db : database :=
  Database {[ "notes" := Table [ Column "id" "INTEGER" false false PkRowid DfltNone;
                                 Column "body" "TEXT" false false NotPk DfltNone ]
                               0 [ {[ "id" := VInt 1; "body" := VText "hello" ]} ] ]}
           ∅.

Definition seeded_app_info : table :=
  Table app_info_columns 2
    [ {[ "id" := VInt 1; "key" := VText "project_name";
         "value" := VText "dsp_db";
         "created_at" := VText "2025-03-01 08:00:00" ]};
      {[ "id" := VInt 2; "key" := VText "version";
         "value" := VText "0.0.9";
         "created_at" := VText "2025-03-01 08:00:00" ]} ].


(** ** Properties of the setup routine *)


(** C2.  A run against a file that does not exist leaves [app_info] and
    [users], [users] with exactly the six columns of the target in their
    order, and the two indexes on [users(username)] and [users(email)]. *)
Theorem fresh_file_target_schema (e : env) (p : option string) :
  env_healthy e →
  ∃ d users,
    run_file (main e p None) = Some d
    ∧ is_Some (db_tables d !! "app_info")
    ∧ db_tables d !! "users" = Some users
    ∧ column_names users
      = ["id"; "username"; "email"; "password_hash"; "last_login"; "created_at"]
    ∧ db_indexes d !! "idx_users_username" = Some (Index "users" "username")
    ∧ db_indexes d !! "idx_users_email" = Some (Index "users" "email").
Proof.
  intros He. destruct (main_healthy e p None He) as [Hfile _].
  set (d := reconciled (env_now e) None) in *.
  assert (Hs : schema_of d = schema_exec_all base_ddl (schema_of empty_db)).
  { apply (reconciled_schema_of (env_now e) None). }
  assert (Hu : tables_schema d !! "users" = Some users_columns).
  { change (tables_schema d) with (schema_of d).1. rewrite Hs.
    vm_compute. reflexivity. }
  assert (Ha : is_Some (tables_schema d !! "app_info")).
  { change (tables_schema d) with (schema_of d).1. rewrite Hs.
    exists app_info_columns. vm_compute. reflexivity. }
  assert (Hi : db_indexes d !! "idx_users_username"
                 = Some (Index "users" "username")
               ∧ db_indexes d !! "idx_users_email"
                 = Some (Index "users" "email")).
  { change (db_indexes d) with (schema_of d).2. rewrite Hs.
    split; vm_compute; reflexivity. }
  destruct (tables_schema_Some _ _ _ Hu) as (users & Hlu & Hcols).
  exists d, users. split; [exact Hfile|].
  split. { rewrite tables_schema_lookup in Ha. by apply fmap_is_Some in Ha. }
  split; [exact Hlu|].
  split. { unfold column_names. rewrite Hcols. reflexivity. }
  exact Hi.
Qed.



(** C5.  The connection opens, yet the process ends with status 1: on a file
    with a foreign [app_info] table and no [users] table the seed of the
    fresh path raises, and nothing between [_create_base_schema] and the
    top level catches it. *)
Theorem seed_failure_exit_code :
  let e := calm_env "2026-11-04 09:00:00" in
  let r := main e None (Some foreign_db) in
  env_connect_error e = None
  ∧ run_outcome r
    = Uncaught (SqliteError "table app_info has no column named key")
  ∧ exit_code (run_outcome r) = 1.
Proof. vm_compute. repeat split; reflexivity. Qed.

(** C6.  A failing catalog query is not reported and survived by every
    inspection: when the query of [_table_exists] (third request of the
    run) or of [_index_exists] (ninth request) fails, the run ends there
    with an uncaught error and status 1, no warning printed; the same
    failure in [_column_exists] (fourth request) is printed as a warning and
    the run completes. *)
Theorem inspection_failure_aborts_run :
  let now := "2026-11-04 09:00:00" in
  let table_query := main (failing_at 2 now) None (Some legacy_db) in
  let index_query := main (failing_at 8 now) None (Some legacy_db) in
  let column_query := main (failing_at 3 now) None (Some legacy_db) in
  (run_outcome table_query = Uncaught (SqliteError "disk I/O error")
   ∧ exit_code (run_outcome table_query) = 1
   ∧ w_trace (run_world table_query)
     = [PragmaForeignKeysOn; SelectOne; SelectMasterTable "users"]
   ∧ w_out (run_world table_query)
     = [ "Starting SQLite setup...";
         "SQLite database already exists at myapp.db";
         "Database is accessible and working." ])
  ∧ (run_outcome index_query = Uncaught (SqliteError "disk I/O error")
     ∧ exit_code (run_outcome index_query) = 1
     ∧ last (w_trace (run_world index_query))
       = Some (SelectMasterIndex "idx_users_username")
     ∧ w_out (run_world index_query)
       = [ "Starting SQLite setup...";
           "SQLite database already exists at myapp.db";
           "Database is accessible and working.";
           "Added users.password_hash column";
           "Added users.last_login column" ])
  ∧ (run_outcome column_query = Returned 0
     ∧ "Warning: could not inspect columns for users: disk I/O error"
       ∈ w_out (run_world column_query)).
Proof.
  vm_compute. repeat split; try reflexivity.
  do 3 right. left.
Qed.

(** C7.  Whatever the engine answers, a run drops no table and no column and
    leaves every column definition (its declared type included) as it was:
    each table of the file is still there afterwards, its old column list a
    prefix of the new one. *)
Theorem setup_never_drops (e : env) (p : option string) (d : database) :
  ∃ d', run_file (main e p (Some d)) = Some d'
        ∧ ∀ t tb, db_tables d !! t = Some tb →
            ∃ tb', db_tables d' !! t = Some tb'
                   ∧ tbl_columns tb `prefix_of` tbl_columns tb'
                   ∧ ∀ c, c ∈ tbl_columns tb →
                       c ∈ tbl_columns tb' .
Proof.
  destruct (main_file_within e p d) as (d' & Hfile & Hle).
  exists d'. split; [done|]. intros t tb Ht.
  destruct (Hle t (tbl_columns tb)) as (cols' & Hc & Hp).
  { rewrite tables_schema_lookup, Ht. done. }
  destruct (tables_schema_Some _ _ _ Hc) as (tb' & Ht' & <-).
  exists tb'. repeat split; [done|done|].
  intros c Hin. destruct Hp as [k ->]. apply elem_of_app. by left.
Qed.




(** ** The theorems at concrete inputs *)

Lemma connect_healthy now d : healthy (connect now no_faults d).
Proof. by intros n. Defined.


Lemma fresh_file_target_schema_witness :
  env_healthy (calm_env "2026-11-04 09:00:00")
  ∧ ∃ d users,
      run_file (main (calm_env "2026-11-04 09:00:00") None None) = Some d
      ∧ is_Some (db_tables d !! "app_info")
      ∧ db_tables d !! "users" = Some users
      ∧ column_names users
        = ["id"; "username"; "email"; "password_hash"; "last_login"; "created_at"]
      ∧ db_indexes d !! "idx_users_username" = Some (Index "users" "username")
      ∧ db_indexes d !! "idx_users_email" = Some (Index "users" "email").
Proof.
  split; [apply calm_env_healthy|].
  apply (fresh_file_target_schema (calm_env "2026-11-04 09:00:00") None),
    calm_env_healthy.
Defined.






(** ** Further properties of the script *)

(** *** How [main] ends *)

(** X1.  Whatever the environment, a call of [main] that returns gives 1
    when [sqlite3.connect] failed and 0 otherwise; no other code is
    returned. *)
Theorem main_returns_zero_or_one (e : env) (p : option string)
    (file : option database) (code : Z) :
  run_outcome (main e p file) = Returned code →
  (code = 1 ∧ env_connect_error e ≠ None)
  ∨ (code = 0 ∧ env_connect_error e = None).
Proof. apply main_returned_codes. Qed.

(** X2.  When [sqlite3.connect] raises, [main] returns 1 at once: the file
    is as it was, no statement has been sent, and the two lines printed are
    the banner and the connection error. *)
Theorem connect_failure_touches_nothing (e : env) (p : option string)
    (file : option database) (msg : string) :
  env_connect_error e = Some msg →
  run_outcome (main e p file) = Returned 1
  ∧ run_file (main e p file) = file
  ∧ w_trace (run_world (main e p file)) = []
  ∧ w_out (run_world (main e p file))
    = ["Starting SQLite setup..."; "Database connection error: " +:+ msg].
Proof. intros H. unfold main. rewrite H. by repeat split. Qed.





(** *** Helpers that never raise *)

(** X7.  [_enable_foreign_keys] never raises and changes neither the working
    copy nor the file; when the engine refuses the pragma the only effect is
    one warning line. *)
Theorem enable_foreign_keys_never_raises (w : world) :
  (_enable_foreign_keys w).1 = Ok ()
  ∧ w_db (_enable_foreign_keys w).2 = w_db w
  ∧ w_disk (_enable_foreign_keys w).2 = w_disk w
  ∧ w_out (_enable_foreign_keys w).2
    = if w_faults w (length (w_trace w))
      then w_out w ++ ["Warning: failed to enable foreign keys: disk I/O error"]
      else w_out w.
Proof.
  unfold _enable_foreign_keys, try_sqlite, conn_execute, mbind, M_bind, bind,
    request.
  destruct (w_faults w _); [done|]. simpl.
  by rewrite andb_false_r.
Qed.

Lemma gather_count_tables_run (w : world) :
  ∃ n, (gather_count CountUserTables w).1 = Ok (VInt n)
       ∧ w_db (gather_count CountUserTables w).2 = w_db w
       ∧ w_disk (gather_count CountUserTables w).2 = w_disk w
       ∧ (w_faults w (length (w_trace w)) = true → n = 0).
Proof.
  unfold gather_count, try_sqlite, mbind, M_bind, bind.
  unfold cursor_execute, mbind, M_bind, bind, set_cursor, request. simpl.
  destruct (w_faults w _); simpl.
  - by exists 0.
  - eexists. rewrite andb_false_r. by repeat split.
Qed.

Lemma gather_count_rows_run (t : string) (w : world) :
  ∃ n, (gather_count (CountRows t) w).1 = Ok (VInt n)
       ∧ w_db (gather_count (CountRows t) w).2 = w_db w
       ∧ w_disk (gather_count (CountRows t) w).2 = w_disk w
       ∧ (w_faults w (length (w_trace w)) = true → n = 0)
       ∧ (db_tables (w_db w) !! t = None → n = 0).
Proof.
  unfold gather_count, try_sqlite, mbind, M_bind, bind.
  unfold cursor_execute, mbind, M_bind, bind, set_cursor, request. simpl.
  destruct (w_faults w _); simpl.
  - by exists 0.
  - unfold count_rows. destruct (db_tables (w_db w) !! t) as [tb|]; simpl.
    + eexists. rewrite andb_false_r. by repeat split.
    + by exists 0.
Qed.

(** X8.  The two statistics queries of [main] never raise and change
    nothing: each yields an integer, and that integer is 0 when the engine
    refuses the query or, for the row count, when the table does not
    exist. *)
Theorem statistics_degrade_to_zero (w : world) (s : stmt) :
  s = CountUserTables ∨ s = CountRows "app_info" →
  ∃ n, (gather_count s w).1 = Ok (VInt n)
       ∧ w_db (gather_count s w).2 = w_db w
       ∧ w_disk (gather_count s w).2 = w_disk w
       ∧ (w_faults w (length (w_trace w)) = true → n = 0)
       ∧ (s = CountRows "app_info" →
          db_tables (w_db w) !! "app_info" = None → n = 0).
Proof.
  intros [-> | ->].
  - destruct (gather_count_tables_run w) as (n & H1 & H2 & H3 & H4).
    exists n. split; [exact H1|]. split; [exact H2|]. split; [exact H3|].
    split; [exact H4|]. intros Hs. discriminate Hs.
  - destruct (gather_count_rows_run "app_info" w) as (n & H1 & H2 & H3 & H4 & H5).
    exists n. split; [exact H1|]. split; [exact H2|]. split; [exact H3|].
    split; [exact H4|]. intros _. exact H5.
Qed.

(** *** What a run keeps, whatever the engine answers *)

Lemma engine_keeps_indexes now s d rows d' :
  engine now s d = EOk rows d' → db_indexes d ⊆ db_indexes d'.
Proof.
  destruct (is_dml s) eqn:Hdml.
  { intros He. pose proof (engine_dml_schema _ _ _ _ _ Hdml He) as [= _ ->].
    done. }
  destruct (is_ddl s) eqn:Hddl.
  2:{ intros He. by rewrite (engine_query_same _ _ _ _ _ Hdml Hddl He). }
  destruct s; try done; simpl.
  - unfold create_table_if_not_exists.
    destruct (db_tables d !! t); by intros [= _ <-].
  - unfold create_index_if_not_exists.
    repeat (case_match; try done); intros [= _ <-]; try done.
    simpl. by apply insert_subseteq.
  - unfold alter_table_add_column.
    repeat (case_match; try done); by intros [= _ <-].
Qed.

Definition keeps_indexes (d0 : database) (w : world) : Prop :=
  db_indexes d0 ⊆ db_indexes (w_db w) ∧ db_indexes d0 ⊆ db_indexes (w_disk w).

Lemma keeps_indexes_stable d0 : stable (keeps_indexes d0).
Proof.
  intros w w' (Hdb & Hdisk & _) [H1 H2]. unfold keeps_indexes.
  by rewrite Hdb, Hdisk.
Qed.

Lemma keeps_indexes_request d0 s : preserves (keeps_indexes d0) (request s).
Proof.
  intros w [Hdb Hdisk]. unfold request.
  destruct (w_faults w _); [done|].
  destruct (engine (w_now w) s (w_db w)) as [rows d'|msg] eqn:He; [|done].
  assert (db_indexes d0 ⊆ db_indexes d').
  { transitivity (db_indexes (w_db w)); [done|]. by eapply engine_keeps_indexes. }
  split; simpl; [done|]. by case_match.
Qed.

Lemma keeps_indexes_commit d0 : preserves (keeps_indexes d0) commit.
Proof.
  intros w [Hdb Hdisk]. unfold commit.
  destruct (w_in_txn w); [|done]. by destruct (w_faults w _).
Qed.

(** A property kept by every request and commit holds of the connection
    [main] leaves, when the connection opened. *)
Lemma main_keeps (P : world → Prop) (e : env) (p : option string)
    (file : option database) :
  stable P → (∀ s, preserves P (request s)) → preserves P commit →
  env_connect_error e = None →
  P (connect (env_now e) (env_faults e) (default empty_db file)) →
  P (run_world (main e p file))
  ∧ run_file (main e p file) = Some (w_disk (run_world (main e p file))).
Proof.
  intros Hst Hreq Hcom Hconn H0. unfold main. rewrite Hconn.
  set (w1 := (print _ _).2).
  assert (H1 : P w1) by by apply (preserves_print _ _ Hst).
  pose proof (preserves_main_connected _ Hst Hreq Hcom
                (bool_decide (file ≠ None)) (db_file_or_default p) w1 H1) as H2.
  destruct (main_connected _ _ w1) as [[counts|ex] w2]; simpl in *; [|done].
  pose proof (preserves_main_report _ Hst e (db_file_or_default p) counts
                w2 H2) as H3.
  by destruct (main_report e _ counts w2) as [[code|ex] w3].
Qed.

(** X9.  Whatever the engine answers, a run drops no index and redefines
    none: every index of the file is in the file afterwards, on the same
    table and column. *)
Theorem setup_keeps_indexes (e : env) (p : option string) (d : database) :
  ∃ d', run_file (main e p (Some d)) = Some d'
        ∧ ∀ i ix, db_indexes d !! i = Some ix → db_indexes d' !! i = Some ix.
Proof.
  destruct (env_connect_error e) as [msg|] eqn:Hconn.
  { exists d. split; [|done]. unfold main. by rewrite Hconn. }
  destruct (main_keeps (keeps_indexes d) e p (Some d)) as [[_ Hdisk] Hfile];
    try done.
  - apply keeps_indexes_stable.
  - apply keeps_indexes_request.
  - apply keeps_indexes_commit.
  - eexists. split; [exact Hfile|].
    intros i ix Hi. by eapply lookup_weaken.
Qed.

(** *** The inspection functions against the catalog *)

(** X10.  On a healthy engine [_table_exists] and [_index_exists] answer
    what the catalog holds, without raising and without changing the
    database: [True] exactly when a table (an index) of that name exists. *)
Theorem table_and_index_inspection (w : world) (name : string) :
  healthy w →
  (_table_exists name w).1
    = Ok (bool_decide (is_Some (db_tables (w_db w) !! name)))
  ∧ (_index_exists name w).1
    = Ok (bool_decide (is_Some (db_indexes (w_db w) !! name)))
  ∧ w_db (_table_exists name w).2 = w_db w
  ∧ w_disk (_table_exists name w).2 = w_disk w
  ∧ w_db (_index_exists name w).2 = w_db w
  ∧ w_disk (_index_exists name w).2 = w_disk w.
Proof.
  intros Hh.
  destruct (table_exists_healthy name w Hh) as (w1 & -> & (H1 & H2 & _) & _).
  destruct (index_exists_healthy name w Hh) as (w2 & -> & (H3 & H4 & _) & _).
  done.
Qed.


(** *** A run that returns has committed *)

Definition synced (w : world) : Prop := w_disk w = w_db w.

Lemma hoare_of_preserves {A} (P : world → Prop) (m : M A) :
  preserves P m → hoare P m (λ _ w, P w).
Proof. intros H w Hw. by apply H. Qed.

Lemma synced_stable : stable synced.
Proof.
  intros w w' (Hdb & Hdisk & _) H. unfold synced. by rewrite Hdb, Hdisk.
Qed.

Lemma commit_synced :
  hoare coherent commit
    (λ r w, match r with Ok _ => synced w | Raise _ => True end).
Proof.
  intros w Hco. unfold commit, synced.
  destruct (w_in_txn w) eqn:Htxn; [by destruct (w_faults w _)|].
  simpl. by apply Hco.
Qed.

Lemma main_connected_synced (db_exists : bool) (p : string) :
  hoare coherent (main_connected db_exists p)
    (λ r w, match r with Ok _ => synced w | Raise _ => True end).
Proof.
  unfold main_connected.
  eapply hoare_bind with (R := λ _ w, coherent w).
  { apply hoare_of_preserves. unfold _enable_foreign_keys.
    apply preserves_try_sqlite;
      [apply preserves_conn_execute, coherent_request
      |intros ?; apply preserves_print, coherent_stable]. }
  2:{ done. }
  intros []. eapply hoare_bind with (R := λ _ w, coherent w).
  { apply hoare_of_preserves. destruct db_exists.
    - apply preserves_bind; [apply preserves_print, coherent_stable|intros ?].
      apply preserves_bind; [|intros ?].
      + apply preserves_try_any; [|intros ?; apply preserves_print, coherent_stable].
        apply preserves_bind;
          [apply preserves_conn_execute, coherent_request
          |intros ?; apply preserves_print, coherent_stable].
      + apply preserves_migrate_existing_db;
          [apply coherent_stable|apply coherent_request].
    - apply preserves_bind; [apply preserves_print, coherent_stable|intros ?].
      apply preserves_create_base_schema;
        [apply coherent_stable|apply coherent_request]. }
  2:{ done. }
  intros []. eapply hoare_bind; [apply commit_synced| |done].
  intros []. simpl.
  eapply hoare_bind with
    (R := λ r w, match r with Ok _ => synced w | Raise _ => True end).
  { intros w Hs. destruct (gather_count_tables_run w) as (n & -> & Hdb & Hdisk & _).
    unfold synced in *. simpl. by rewrite Hdb, Hdisk. }
  2:{ done. }
  intros tc. simpl.
  eapply hoare_bind with
    (R := λ r w, match r with Ok _ => synced w | Raise _ => True end).
  { intros w Hs.
    destruct (gather_count_rows_run "app_info" w) as (n & -> & Hdb & Hdisk & _).
    unfold synced in *. simpl. by rewrite Hdb, Hdisk. }
  2:{ done. }
  intros rc w Hs. exact Hs.
Qed.

(** X12.  Whatever the engine answers, a call of [main] that returns 0 has
    committed: the file holds exactly what the connection saw when it was
    closed, so no change of the run is lost. *)
Theorem returned_run_is_committed (e : env) (p : option string)
    (file : option database) :
  run_outcome (main e p file) = Returned 0 →
  run_file (main e p file) = Some (w_db (run_world (main e p file))).
Proof.
  unfold main. destruct (env_connect_error e) as [msg|]; [done|].
  set (w1 := (print _ _).2).
  assert (H1 : coherent w1) by by intros _.
  pose proof (main_connected_synced (bool_decide (file ≠ None))
                (db_file_or_default p) w1 H1) as H2.
  destruct (main_connected _ _ w1) as [[counts|ex] w2]; simpl in H2; [|done].
  pose proof (preserves_main_report _ synced_stable e (db_file_or_default p)
                counts w2 H2) as H3.
  destruct (main_report e _ counts w2) as [[code|ex] w3]; [|done].
  simpl in *. intros _. by rewrite H3.
Qed.

(** *** Which tables a statement can touch *)










(** *** The rows of [users] through the incremental path *)








(** *** The seed rows of [app_info] *)















(** *** The incremental path on a database that is up to date *)





(** ** The further properties at concrete inputs *)

(** The engine cannot open the file. *)
Definition locked_env (now : string) : env :=
  Env (Some "unable to open database file") now no_faults "/srv/dsp_db"
      None true None None false.



(** A file a previous run has reconciled. *)
Definition current_users : table := Table users_columns 0 [].

Definition current_db : database :=
  Database {[ "users" := current_users; "app_info" := seeded_app_info ]}
           {[ "idx_users_username" := Index "users" "username";
              "idx_users_email" := Index "users" "email" ]}.




Lemma main_returns_zero_or_one_witness :
  let e := calm_env "2026-11-04 09:00:00" in
  run_outcome (main e None (Some legacy_db)) = Returned 0
  ∧ ((0 = 1 ∧ env_connect_error e ≠ None)
     ∨ (0 = 0 ∧ env_connect_error e = None)).
Proof.
  cbv zeta. split; [vm_compute; reflexivity|].
  apply (main_returns_zero_or_one (calm_env "2026-11-04 09:00:00") None
           (Some legacy_db) 0).
  vm_compute; reflexivity.
Defined.

Lemma connect_failure_touches_nothing_witness :
  let e := locked_env "2026-11-04 09:00:00" in
  let r := main e None (Some legacy_db) in
  env_connect_error e = Some "unable to open database file"
  ∧ run_outcome r = Returned 1
  ∧ run_file r = Some legacy_db
  ∧ w_trace (run_world r) = []
  ∧ w_out (run_world r)
    = [ "Starting SQLite setup...";
        "Database connection error: " +:+ "unable to open database file" ].
Proof.
  cbv zeta. split; [reflexivity|].
  apply (connect_failure_touches_nothing (locked_env "2026-11-04 09:00:00")
           None (Some legacy_db) "unable to open database file").
  reflexivity.
Defined.





Lemma statistics_degrade_to_zero_witness :
  let w := connect "2026-11-04 09:00:00" no_faults notes_db in
  let s := CountRows "app_info" in
  (s = CountUserTables ∨ s = CountRows "app_info")
  ∧ ∃ n, (gather_count s w).1 = Ok (VInt n)
         ∧ w_db (gather_count s w).2 = w_db w
         ∧ w_disk (gather_count s w).2 = w_disk w
         ∧ (w_faults w (length (w_trace w)) = true → n = 0)
         ∧ (s = CountRows "app_info" →
            db_tables (w_db w) !! "app_info" = None → n = 0).
Proof.
  cbv zeta. split; [right; reflexivity|].
  apply (statistics_degrade_to_zero
           (connect "2026-11-04 09:00:00" no_faults notes_db)
           (CountRows "app_info")).
  right; reflexivity.
Defined.

Lemma table_and_index_inspection_witness :
  let w := connect "2026-11-04 09:00:00" no_faults current_db in
  let name := "idx_users_email" in
  healthy w
  ∧ (_table_exists name w).1
    = Ok (bool_decide (is_Some (db_tables (w_db w) !! name)))
  ∧ (_index_exists name w).1
    = Ok (bool_decide (is_Some (db_indexes (w_db w) !! name)))
  ∧ w_db (_table_exists name w).2 = w_db w
  ∧ w_disk (_table_exists name w).2 = w_disk w
  ∧ w_db (_index_exists name w).2 = w_db w
  ∧ w_disk (_index_exists name w).2 = w_disk w.
Proof.
  cbv zeta. split; [apply connect_healthy|].
  apply (table_and_index_inspection
           (connect "2026-11-04 09:00:00" no_faults current_db)
           "idx_users_email"), connect_healthy.
Defined.


Lemma returned_run_is_committed_witness :
  let r := main (failing_at 3 "2026-11-04 09:00:00") None (Some legacy_db) in
  run_outcome r = Returned 0
  ∧ run_file r = Some (w_db (run_world r)).
Proof.
  cbv zeta. split; [vm_compute; reflexivity|].
  apply (returned_run_is_committed (failing_at 3 "2026-11-04 09:00:00") None
           (Some legacy_db)).
  vm_compute; reflexivity.
Defined.





